(** * ipfs-uniform-resolve: the path resolver, embedded and verified

    A shallow embedding of [src/index.ts] (the factory returning
    [resolveIpns] and [resolve]) and of [src/error.ts] ([DeadEndError]).

    - The three dynamic dependencies of the factory ([block], [name] and the
      multidecoder) are an interface, [Collaborators]; every call that reaches
      one of them is logged as an [event], so that "no collaborator was
      invoked" is a statement about the log.
    - The pieces of the JavaScript run time and of the [multiformats] library
      the code relies on ([CID.parse], [CID.toString], [JSON.parse], inherited
      properties) are a second interface, [Runtime].
    - [async]/[await] is sequential here: a computation is a log of events
      together with either a thrown error or a value.
    - Every recursive call of [resolve] is a tail call ([return await
      this.resolve(...)]), so one activation is [resolve_body], which either
      finishes or names the arguments of the next activation, and [resolve]
      iterates it. *)

From Stdlib Require Import ZArith String Ascii List Lia.
From Stdlib Require Import Init.Byte Strings.Byte.
From stdpp Require Import gmap strings list.
Import ListNotations.

#[local] Set Warnings "-register-all".
#[local] Open Scope string_scope.

(** ** Strings and paths *)

Module Str.

Definition is_slash (c : ascii) : bool := Ascii.eqb c "/"%char.

Definition starts_with_slash (s : string) : bool :=
  match s with
  | String c _ => is_slash c
  | EmptyString => false
  end.

(** [s.split(/\/+/)]: the pieces between maximal runs of slashes.  The
    result is never empty; a leading or trailing run leaves an empty
    piece at that end. *)
Fixpoint split_slashes (s : string) : list string :=
  match s with
  | EmptyString => [EmptyString]
  | String c s' =>
      let r := split_slashes s' in
      if is_slash c then
        if starts_with_slash s' then r else EmptyString :: r
      else
        match r with
        | w :: ws => String c w :: ws
        | [] => [String c EmptyString]
        end
  end.

(** [(s) => s.length], used as a truth value. *)
Definition nonempty (s : string) : bool :=
  negb (Nat.eqb (String.length s) 0).

(** [path.split(/\/+/).filter((s) => s.length)] *)
Definition segments (path : string) : list string :=
  List.filter nonempty (split_slashes path).

(** [Array.prototype.join] on an array of strings. *)
Fixpoint join (sep : string) (l : list string) : string :=
  match l with
  | [] => EmptyString
  | [x] => x
  | x :: xs => x +:+ sep +:+ join sep xs
  end.

(** [l.reduce((acc, x) => acc + "/" + x)], called without an initial
    value: [None] stands for the TypeError JavaScript raises on an empty
    array. *)
Definition reduce_slash (l : list string) : option string :=
  match l with
  | [] => None
  | x :: xs => Some (fold_left (fun acc y => acc +:+ "/" +:+ y) xs x)
  end.

(** [s.slice(n)] for [n >= 0]: the string without its first [n]
    characters (empty when it has fewer). *)
Fixpoint slice (n : nat) (s : string) : string :=
  match n, s with
  | O, _ => s
  | S n', String _ s' => slice n' s'
  | S _, EmptyString => EmptyString
  end.

(** A segment as [segments] produces them: not empty, no slash. *)
Fixpoint slash_free (s : string) : bool :=
  match s with
  | EmptyString => true
  | String c s' => negb (is_slash c) && slash_free s'
  end.

Definition is_segment (s : string) : bool := nonempty s && slash_free s.

(** A path made of slashes only (the empty path included). *)
Fixpoint only_slashes (s : string) : bool :=
  match s with
  | EmptyString => true
  | String c s' => is_slash c && only_slashes s'
  end.

(** The canonical decimal spelling of an array index: ["0"], or digits
    without a leading zero. *)
Definition digit (c : ascii) : option nat :=
  let n := nat_of_ascii c in
  if (48 <=? n)%nat && (n <=? 57)%nat then Some (n - 48)%nat else None.

Fixpoint digits (acc : nat) (s : string) : option nat :=
  match s with
  | EmptyString => Some acc
  | String c s' =>
      match digit c with
      | Some d => digits (10 * acc + d)%nat s'
      | None => None
      end
  end.

Definition array_index (key : string) : option nat :=
  match key with
  | EmptyString => None
  | String c rest =>
      if Ascii.eqb c "0"%char
      then match rest with EmptyString => Some O | _ => None end
      else digits O key
  end.

End Str.

(** ** Data model *)

#[global] Instance byte_eq_decision : EqDecision byte := Byte.byte_eq_dec.

(** A content identifier: codec code, hash-function code, digest. *)
Record CID := MkCID {
  code : Z;
  multihash_code : Z;
  multihash_digest : list byte
}.

(** The code for `libp2p-key-codec'. *)
Definition kLibp2pKeyCodec : Z := 0x72%Z.

(** [pb.code] of [@ipld/dag-pb]. *)
Definition pb_code : Z := 0x70%Z.

(** [pb.PBLink] and [pb.PBNode]. *)
Record PBLink := MkPBLink {
  Name : option string;
  Tsize : option Z;
  Hash : CID
}.

Record PBNode := MkPBNode {
  Data : option (list byte);
  Links : list PBLink
}.

(** What a decoder hands back as [decoded.value].  [VPb] is a node of the
    linked-file encoding; the other constructors are the generic tree:
    maps, sequences and scalar leaves, a leaf possibly being an identifier
    ([VLink], an instance of the [CID] class).  Numbers are integers; a
    floating-point leaf is one more scalar and walks like [VNum].  [VHost]
    is an object of the run time itself (a built-in method, a prototype)
    that property access can reach through inheritance. *)
Inductive value :=
| VNull
| VBool (b : bool)
| VNum (z : Z)
| VStr (s : string)
| VBytes (b : list byte)
| VLink (c : CID)
| VList (l : list value)
| VMap (m : gmap string value)
| VPb (n : PBNode)
| VHost (tag : string).

(** [Block<any>]: the decoded node. *)
Record Block := MkBlock {
  block_cid : CID;
  block_value : value;
  block_bytes : list byte
}.

(** src/error.ts: the fields [cid] and [at] are [dead_cid] and [dead_at]
    here. *)
Record DeadEndError := MkDeadEndError {
  message : string;
  dead_cid : CID;
  dead_at : string;
  remaining : string
}.

(** Everything that can be thrown.  [Foreign] is an error kind owned by a
    collaborator or by the identifier library. *)
Inductive error :=
| TypeError (msg : string)
| SyntaxError (msg : string)
| DeadEnd (e : DeadEndError)
| Foreign (kind : string).

(** [{ followPb?: boolean; followIpld?: boolean }] *)
Record Options := MkOptions {
  followPb : option bool;
  followIpld : option bool
}.

(** [options?.followPb === false] *)
Definition followPb_is_false (options : option Options) : bool :=
  match options with
  | Some {| followPb := Some false |} => true
  | _ => false
  end.

(** [options?.followIpld === false] *)
Definition followIpld_is_false (options : option Options) : bool :=
  match options with
  | Some {| followIpld := Some false |} => true
  | _ => false
  end.

(** [{ value, cid, block }], what [resolve] returns. *)
Record Resolution := MkResolution {
  res_value : value;
  res_cid : CID;
  res_block : Block
}.

(** ** Effects *)

(** One entry per call that reaches a collaborator. *)
Inductive event :=
| BlockGet (c : CID)
| Decode (codec hasher : Z) (bytes : list byte)
| NameResolve (addr : string) (recursive : bool) (timeout : option Z).

(** A computation: the calls it made, then a thrown error or a value. *)
Definition M (A : Type) : Type := list event * (error + A).

Definition ret {A} (a : A) : M A := ([], inr a).
Definition throw {A} (e : error) : M A := ([], inl e).
Definition bind {A B} (m : M A) (k : A -> M B) : M B :=
  match m with
  | (t, inl e) => (t, inl e)
  | (t, inr a) => let '(t', r) := k a in ((t ++ t')%list, r)
  end.

Notation "'do' x <- m ; k" := (bind m (fun x => k))
  (at level 10, x name, m at level 100, k at level 200).

(** The factory's dynamic dependencies: the [block] API ([get]), the
    multidecoder ([decode]) and the [name] API ([resolve]).  The name
    resolver's async iterable is the finite list of strings it yields,
    followed by the error that ends it, if any. *)
Class Collaborators := {
  block_get : CID -> error + list byte;
  decoder_decode : Z -> Z -> list byte -> error + Block;
  name_resolve : string -> bool -> option Z -> list string * option error
}.

(** The identifier library and the JavaScript run time.
    - [CID_parse s] is [CID.parse(s)] on a string, [inl] when it throws.
    - [JSON_key s] is the property key that [a[JSON.parse(s)]] indexes
      with, [None] when [JSON.parse] raises its SyntaxError.
    - [builtin_property v k] is what [v[k]] evaluates to when [k] is not
      one of the data properties of [v] listed by [own_property] below: a
      property found on the prototype chain ([constructor], [toString],
      ...) or a field of a library object; [None] is [undefined]. *)
Class Runtime := {
  CID_parse : string -> error + CID;
  CID_toString : CID -> string;
  JSON_key : string -> option string;
  builtin_property : value -> string -> option value
}.

(** ** Property access *)

(** The outcome of [node[key]]. *)
Inductive lookup :=
| Found (v : value)
| Undefined
| Raises (e : error).

(** A [PBLink] seen as a plain object. *)
Definition link_value (l : PBLink) : value :=
  let m0 : gmap string value := {[ "Hash" := VLink (Hash l) ]} in
  let m1 := match Name l with Some n => <["Name" := VStr n]> m0 | None => m0 end in
  let m2 := match Tsize l with Some z => <["Tsize" := VNum z]> m1 | None => m1 end in
  VMap m2.

(** The properties a value holds as data. *)
Definition own_property (v : value) (key : string) : option value :=
  match v with
  | VMap m => m !! key
  | VList l =>
      match Str.array_index key with
      | Some n => l !! n
      | None =>
          if String.eqb key "length" then Some (VNum (Z.of_nat (length l)))
          else None
      end
  | VStr s =>
      match Str.array_index key with
      | Some n =>
          match String.get n s with
          | Some c => Some (VStr (String c EmptyString))
          | None => None
          end
      | None =>
          if String.eqb key "length" then Some (VNum (Z.of_nat (String.length s)))
          else None
      end
  | VBytes b =>
      match Str.array_index key with
      | Some n =>
          match b !! n with
          | Some x => Some (VNum (Z.of_N (Byte.to_N x)))
          | None => None
          end
      | None => None
      end
  | VPb n =>
      if String.eqb key "Links" then Some (VList (map link_value (Links n)))
      else if String.eqb key "Data" then
        match Data n with Some d => Some (VBytes d) | None => None end
      else None
  | VNull | VBool _ | VNum _ | VLink _ | VHost _ => None
  end.

Section Resolver.

Context {collaborators : Collaborators} {runtime : Runtime}.

(** [v[key]] for a string [key]. *)
Definition get (v : value) (key : string) : lookup :=
  match v with
  | VNull => Raises (TypeError "Cannot read properties of null")
  | _ =>
      match own_property v key with
      | Some x => Found x
      | None =>
          match builtin_property v key with
          | Some x => Found x
          | None => Undefined
          end
      end
  end.

(** Lines 166-169: arrays are indexed by [JSON.parse(seg)], everything
    else by [seg]. *)
Definition index (node : value) (seg : string) : lookup :=
  match node with
  | VList _ =>
      match JSON_key seg with
      | Some k => get node k
      | None => Raises (SyntaxError "Unexpected token in JSON")
      end
  | _ => get node seg
  end.

(** [CID.asCID(node)]: the node itself when it is a [CID] instance. *)
Definition asCID (node : value) : option CID :=
  match node with
  | VLink c => Some c
  | _ => None
  end.

(** [try { cidStr = CID.parse(node) } catch {}]: [CID.parse] throws on
    everything that is not a string spelling an identifier, and the
    [catch] swallows it. *)
Definition try_parse (node : value) : option CID :=
  match node with
  | VStr s =>
      match CID_parse s with
      | inr c => Some c
      | inl _ => None
      end
  | _ => None
  end.

(** The two collaborator calls of [resolve] and the one of
    [resolveIpns], logged. *)
Definition call_get (c : CID) : M (list byte) :=
  ([BlockGet c], block_get c).

Definition call_decode (codec hasher : Z) (bytes : list byte) : M Block :=
  ([Decode codec hasher bytes], decoder_decode codec hasher bytes).

Definition call_name_resolve (addr : string) (recursive : bool)
    (timeout : option Z) : M (list string) :=
  ([NameResolve addr recursive timeout],
   match name_resolve addr recursive timeout with
   | (_, Some e) => inl e
   | (emitted, None) => inr emitted
   end).

(** *** resolveIpns *)

Definition resolveIpns (cid : CID + string) (timeout : option Z) : M CID :=
  let ipnsAddr :=
    "/ipns/" +:+ match cid with
                 | inr s => s
                 | inl c => CID_toString c
                 end in
  do emitted <- call_name_resolve ipnsAddr true timeout;
  (* let r = null; for await (const i of ...) r = i; *)
  let r := fold_left (fun _ i => Some i) emitted None in
  match r with
  | None => throw (TypeError "Cannot read properties of null (reading 'slice')")
  | Some last =>
      (* Cut out the /ipns/ from the start *)
      match CID_parse (Str.slice 6 last) with
      | inr c => ret c
      | inl e => throw e
      end
  end.

(** *** resolve *)

(** What one activation of [resolve] ends with: a returned result, or
    the arguments of the tail call [this.resolve(cid, path, options)]. *)
Inductive step :=
| Return (r : Resolution)
| Recurse (cid : CID) (path : string) (options : option Options).

Definition dead_end (msg : string) (cid : CID) (curr : string)
    (rest : list string) : error :=
  DeadEnd {| message := msg; dead_cid := cid; dead_at := curr;
             remaining := Str.join "/" rest |}.

Definition dead_end_prefix (cid : CID) : string :=
  "Resolution hit dead end at CID " +:+ CID_toString cid +:+ ": ".

Section Walk.

(** What the loop of lines 164-197 closes over. *)
Variables (cid : CID) (decoded : Block) (options : option Options).
Variables (segs : list string) (curr : string) (rest : list string).

(** [for (const [i, seg] of segs.entries()) { ... }] followed by the
    final [return]; [node] is the cursor, [i] the position of the head
    of [todo] in [segs]. *)
Fixpoint walk (node : value) (i : nat) (todo : list string) : M step :=
  match todo with
  | [] => ret (Return {| res_value := node; res_cid := cid;
                         res_block := decoded |})
  | seg :: todo' =>
      match index node seg with
      | Raises e => throw e
      | Undefined =>
          (* the message is built first: its [reduce] has no initial
             value *)
          match Str.reduce_slash (firstn i segs) with
          | None =>
              throw (TypeError "Reduce of empty array with no initial value")
          | Some consumed =>
              throw (dead_end
                       (dead_end_prefix cid +:+
                        "object has no property at path /" +:+ consumed)
                       cid curr rest)
          end
      | Found node' =>
          match asCID node' with
          | Some asCid =>
              ret (Recurse asCid (Str.join "/" (skipn i segs)) options)
          | None =>
              match try_parse node' with
              | Some cidStr =>
                  ret (Recurse cidStr (Str.join "/" (skipn i segs)) options)
              | None => walk node' (S i) todo'
              end
          end
      end
  end.

End Walk.

Definition resolve_body (cid : CID) (path : string)
    (options : option Options) : M step :=
  if (code cid =? kLibp2pKeyCodec)%Z then
    throw (TypeError
      ("Received CID with codec for 'libp2p-key'. " +:+
       "If you need to resolve IPNS into a CID, call resolveIpns() first"))
  else
    do bytes <- call_get cid;
    do decoded <- call_decode (code cid) (multihash_code cid) bytes;
    let segs := Str.segments path in
    match segs with
    | [] =>
        (* Bail out early *)
        ret (Return {| res_value := block_value decoded;
                       res_cid := block_cid decoded;
                       res_block := decoded |})
    | curr :: rest =>
        if (code cid =? pb_code)%Z then
          (* This is a DAG-PB file node, traverse it differently *)
          if followPb_is_false options then
            throw (dead_end
                     (dead_end_prefix cid +:+
                      "node is a DAG-PB node, but 'followPb' is set to 'false'")
                     cid curr rest)
          else
            match block_value decoded with
            | VPb node =>
                match find (fun n => bool_decide (Name n = Some curr))
                           (Links node) with
                | Some child =>
                    (* Found a link matching the leftmost path segment *)
                    ret (Recurse (Hash child) (Str.join "/" rest) options)
                | None =>
                    (* No link: give up *)
                    throw (dead_end
                             (dead_end_prefix cid +:+ "no link to " +:+ curr)
                             cid curr rest)
                end
            | _ =>
                (* [decoded.value as pb.PBNode] does not hold: there is
                   no [Links] array to search *)
                throw (TypeError "Cannot read properties of undefined (reading 'find')")
            end
        else
          (* This is a "regular" codec block *)
          if followIpld_is_false options then
            throw (dead_end
                     (dead_end_prefix cid +:+
                      "node is an IPLD node, but 'followIpld' is set to 'false'")
                     cid curr rest)
          else
            walk cid decoded options segs curr rest
                 (block_value decoded) 0 segs
    end.

(** [resolve] itself: activations chained by their tail calls.  [None]
    is "still recursing after [fuel] activations". *)
Fixpoint resolve (fuel : nat) (cid : CID) (path : string)
    (options : option Options) : list event * option (error + Resolution) :=
  match fuel with
  | O => ([], None)
  | S fuel' =>
      match resolve_body cid path options with
      | (t, inl e) => (t, Some (inl e))
      | (t, inr (Return r)) => (t, Some (inr r))
      | (t, inr (Recurse cid' path' options')) =>
          let '(t', r) := resolve fuel' cid' path' options' in
          ((t ++ t')%list, r)
      end
  end.

(** *** Reading the walk

    The cursor the loop holds after it has indexed its way through
    [segs], one plain property access per segment, and the test the loop
    applies to each new cursor: is it an identifier, either typed as one
    or a string that parses as one. *)
Fixpoint cursor_after (node : value) (segs : list string) : option value :=
  match segs with
  | [] => Some node
  | seg :: segs' =>
      match index node seg with
      | Found node' => cursor_after node' segs'
      | Undefined | Raises _ => None
      end
  end.

Definition embedded_identifier (v : value) : option CID :=
  match v with
  | VLink c => Some c
  | VStr s =>
      match CID_parse s with
      | inr c => Some c
      | inl _ => None
      end
  | _ => None
  end.

(** The log of an activation that got past the fetch and the decode. *)
Definition fetched (cid : CID) (bytes : list byte) : list event :=
  [BlockGet cid; Decode (code cid) (multihash_code cid) bytes].

End Resolver.

(** ** A small block store to run the resolver on

    Test doubles for the two interfaces, in the manner of a unit test:
    five blocks, a name record, and an identifier syntax ([cid:<name>]) in
    place of multibase text. *)

Module Demo.

Definition dag_json : Z := 0x0129%Z.
Definition sha2_256 : Z := 0x12%Z.

Definition cid_link : CID := MkCID dag_json sha2_256 [x01].
Definition cid_child : CID := MkCID dag_json sha2_256 [x02].
Definition cid_dir : CID := MkCID pb_code sha2_256 [x03].
Definition cid_tree : CID := MkCID dag_json sha2_256 [x04].
Definition cid_typed : CID := MkCID dag_json sha2_256 [x05].
Definition cid_key : CID := MkCID kLibp2pKeyCodec 0%Z [x06].

Definition known : list (string * CID) :=
  [("cid:link", cid_link); ("cid:child", cid_child); ("cid:dir", cid_dir);
   ("cid:tree", cid_tree); ("cid:typed", cid_typed); ("cid:key", cid_key)].

Definition parse (s : string) : error + CID :=
  match find (fun p => String.eqb (fst p) s) known with
  | Some p => inr (snd p)
  | None => inl (Foreign "invalid CID")
  end.

Definition toString (c : CID) : string :=
  match find (fun p => bool_decide (multihash_digest (snd p) = multihash_digest c))
             known with
  | Some p => fst p
  | None => "cid:?"
  end.

(** [{"link": "cid:child"}] *)
Definition v_link : value := VMap {[ "link" := VStr "cid:child" ]}.

(** [{"link": {"extra": "deep"}, "extra": "shallow"}] *)
Definition v_child : value :=
  VMap (<[ "link" := VMap {[ "extra" := VStr "deep" ]} ]>
          {[ "extra" := VStr "shallow" ]}).

(** A directory with a duplicated name and an unnamed link. *)
Definition v_dir : value :=
  VPb {| Data := None;
         Links := [ MkPBLink None None cid_link;
                    MkPBLink (Some "file.json") (Some 7%Z) cid_child;
                    MkPBLink (Some "dup") None cid_tree;
                    MkPBLink (Some "dup") None cid_child ] |}.

(** [{"a": {"b": ["x", "y", "z"]}, "n": null}] *)
Definition v_tree : value :=
  VMap (<[ "a" := VMap {[ "b" := VList [VStr "x"; VStr "y"; VStr "z"] ]} ]>
          {[ "n" := VNull ]}).

(** [{"typed": CID(child), "k": {"typed": CID(tree)},
      "far": {"away": {"typed": CID(child)}}}] *)
Definition v_typed : value :=
  VMap (<[ "typed" := VLink cid_child ]>
       (<[ "k" := VMap {[ "typed" := VLink cid_tree ]} ]>
          {[ "far" := VMap {[ "away" := VMap {[ "typed" := VLink cid_child ]} ]} ]})).

Definition store : list (list byte * value) :=
  [([x01], v_link); ([x02], v_child); ([x03], v_dir); ([x04], v_tree);
   ([x05], v_typed)].

(** The block source stores each block under its digest. *)
Definition get (c : CID) : error + list byte :=
  match find (fun p => bool_decide (fst p = multihash_digest c)) store with
  | Some p => inr (fst p)
  | None => inl (Foreign "block not found")
  end.

Definition decode (codec hasher : Z) (bytes : list byte) : error + Block :=
  match find (fun p => bool_decide (fst p = bytes)) store with
  | Some p => inr {| block_cid := MkCID codec hasher bytes;
                     block_value := snd p;
                     block_bytes := bytes |}
  | None => inl (Foreign "cannot decode")
  end.

(** One name is on record; it takes a hop to reach its target. *)
Definition names (addr : string) (recursive : bool) (timeout : option Z)
    : list string * option error :=
  if String.eqb addr "/ipns/example.name"
  then (["/ipns/intermediate"; "/ipns/cid:child"], None)
  else ([], Some (Foreign "could not resolve name")).

(** [JSON.parse] followed by the key conversion, for the texts the runs
    below use: a decimal integer indexes by its canonical spelling, the
    three literals by their own text, and a text that starts no JSON value
    is a SyntaxError.  JSON texts of other shapes (fractions, exponents,
    quoted strings, arrays, objects) do not occur below; this stand-in
    answers them like the latter. *)
Definition json_key (s : string) : option string :=
  match Str.array_index s with
  | Some _ => Some s
  | None =>
      if String.eqb s "-0" then Some "0"
      else if String.eqb s "true" || String.eqb s "false" || String.eqb s "null"
      then Some s
      else None
  end.

(** Every object inherits these from [Object.prototype]. *)
Definition builtin (v : value) (key : string) : option value :=
  if String.eqb key "constructor" || String.eqb key "toString"
     || String.eqb key "valueOf" || String.eqb key "hasOwnProperty"
  then Some (VHost key)
  else None.

#[export] Instance collaborators : Collaborators :=
  {| block_get := get; decoder_decode := decode; name_resolve := names |}.

#[export] Instance runtime : Runtime :=
  {| CID_parse := parse; CID_toString := toString;
     JSON_key := json_key; builtin_property := builtin |}.

End Demo.

(** ** The shape of a log

    What the log of [resolve] looks like: rounds of a [get] followed by the
    [decode] of what it returned, under the codes of the identifier that
    was fetched; a [get] that failed closes the log. *)

Fixpoint paired `{Collaborators} (log : list event) : Prop :=
  match log with
  | [] => True
  | BlockGet c :: log1 =>
      code c <> kLibp2pKeyCodec /\
      match log1 with
      | [] => exists e, block_get c = inl e
      | Decode codec hasher bytes :: log2 =>
          codec = code c /\ hasher = multihash_code c /\
          block_get c = inr bytes /\ paired log2
      | _ => False
      end
  | _ => False
  end.

(** ** A second store

    A sequence at the root of a block, a map that spells a libp2p-key
    identifier, a block the registry cannot decode, and two name records
    whose last hop is not what [resolveIpns] expects. *)

Module Shelf.

Definition dag_cbor : Z := 0x71%Z.

Definition cid_seq : CID := MkCID dag_cbor Demo.sha2_256 [x11].
Definition cid_ipns : CID := MkCID dag_cbor Demo.sha2_256 [x12].
Definition cid_bad : CID := MkCID dag_cbor Demo.sha2_256 [x13].
Definition cid_gone : CID := MkCID dag_cbor Demo.sha2_256 [x14].

(** [["zero", null, {"k": "v"}]] *)
Definition v_seq : value :=
  VList [VStr "zero"; VNull; VMap {[ "k" := VStr "v" ]}].

(** [{"ipns": "cid:key"}] *)
Definition v_ipns : value := VMap {[ "ipns" := VStr "cid:key" ]}.

Definition get (c : CID) : error + list byte :=
  if bool_decide (multihash_digest c ∈ [[x11]; [x12]; [x13]])
  then inr (multihash_digest c)
  else inl (Foreign "block not found").

Definition decode (codec hasher : Z) (bytes : list byte) : error + Block :=
  if bool_decide (bytes = [x11])
  then inr (MkBlock (MkCID codec hasher bytes) v_seq bytes)
  else if bool_decide (bytes = [x12])
  then inr (MkBlock (MkCID codec hasher bytes) v_ipns bytes)
  else inl (Foreign "cannot decode").

Definition names (addr : string) (recursive : bool) (timeout : option Z)
    : list string * option error :=
  if String.eqb addr "/ipns/odd.name" then (["/ipfs/cid:child"], None)
  else if String.eqb addr "/ipns/short.name" then (["/ipns"], None)
  else Demo.names addr recursive timeout.

#[export] Instance collaborators : Collaborators :=
  {| block_get := get; decoder_decode := decode; name_resolve := names |}.

End Shelf.

(** ** Facts about paths *)

Module StrFacts.
Import Str.

Lemma split_slashes_nonnil s : split_slashes s <> [].
Proof.
  induction s as [|c s IH]; simpl; [done|].
  destruct (is_slash c).
  - by destruct (starts_with_slash s).
  - by destruct (split_slashes s).
Qed.

(** Every piece of a split is free of slashes. *)
Lemma split_slashes_slash_free s :
  Forall (fun w => slash_free w = true) (split_slashes s).
Proof.
  induction s as [|c s IH]; simpl.
  - by repeat constructor.
  - destruct (is_slash c) eqn:Hc.
    + destruct (starts_with_slash s); [done|]. by constructor.
    + destruct (split_slashes s) as [|w ws].
      * repeat constructor. simpl. by rewrite Hc.
      * inversion IH as [|? ? Hw Hws]; subst. constructor; [|done].
        simpl. by rewrite Hc, Hw.
Qed.

Lemma segments_are_segments path :
  Forall (fun w => is_segment w = true) (segments path).
Proof.
  unfold segments.
  pose proof (split_slashes_slash_free path) as H.
  induction H as [|w ws Hw _ IH]; simpl; [constructor|].
  destruct (nonempty w) eqn:Hn; [|done].
  constructor; [|done]. unfold is_segment. by rewrite Hn, Hw.
Qed.

(** A split that starts on a slash starts with an empty piece. *)
Lemma split_slashes_leading_slash c s :
  is_slash c = true ->
  exists ws, split_slashes (String c s) = EmptyString :: ws
             /\ List.filter nonempty ws = segments s.
Proof.
  revert c. induction s as [|d s IH]; intros c Hc.
  - exists [EmptyString]. simpl. by rewrite Hc.
  - cbn [split_slashes starts_with_slash]. rewrite Hc.
    destruct (is_slash d) eqn:Hd.
    + destruct (IH d Hd) as (ws & Hs & Hf). exists ws.
      cbn [split_slashes] in Hs. rewrite Hd in Hs. split; [done|].
      rewrite Hf. unfold segments.
      change (split_slashes (String d s)) with
        (let r := split_slashes s in
         if is_slash d then if starts_with_slash s then r else EmptyString :: r
         else match r with w :: ws => String d w :: ws | [] => [String d EmptyString] end).
      cbn zeta. rewrite Hd.
      destruct (starts_with_slash s); reflexivity.
    + eexists. split; [reflexivity|]. unfold segments.
      cbn [split_slashes]. by rewrite Hd.
Qed.

(** Leading slashes do not contribute a segment. *)
Lemma segments_leading_slash c s :
  is_slash c = true -> segments (String c s) = segments s.
Proof.
  intros Hc. destruct (split_slashes_leading_slash c s Hc) as (ws & Hs & Hf).
  unfold segments at 1. by rewrite Hs.
Qed.

(** A slash-free prefix goes to the first piece. *)
Lemma split_slashes_word x s :
  slash_free x = true ->
  split_slashes (x +:+ s) =
    match split_slashes s with
    | w :: ws => (x +:+ w) :: ws
    | [] => [x]
    end.
Proof.
  induction x as [|c x IH]; intros Hx.
  - change (EmptyString +:+ s) with s.
    pose proof (split_slashes_nonnil s).
    by destruct (split_slashes s).
  - simpl in Hx. apply andb_prop in Hx as [Hc Hx].
    apply negb_true_iff in Hc.
    change (String c x +:+ s) with (String c (x +:+ s)).
    cbn [split_slashes]. rewrite Hc, (IH Hx).
    pose proof (split_slashes_nonnil s).
    by destruct (split_slashes s).
Qed.

Lemma append_empty_r x : x +:+ EmptyString = x.
Proof.
  induction x as [|c x IH]; [reflexivity|].
  change (String c x +:+ EmptyString) with (String c (x +:+ EmptyString)).
  by rewrite IH.
Qed.

Lemma segments_single x : is_segment x = true -> segments x = [x].
Proof.
  unfold is_segment. intros [Hn Hx]%andb_prop.
  unfold segments. rewrite <- (append_empty_r x) at 1.
  rewrite (split_slashes_word x EmptyString Hx). simpl.
  by rewrite append_empty_r, Hn.
Qed.

Lemma segments_word_slash x s :
  is_segment x = true -> segments (x +:+ "/" +:+ s) = x :: segments s.
Proof.
  unfold is_segment. intros [Hn Hx]%andb_prop.
  destruct (split_slashes_leading_slash "/"%char s eq_refl) as (ws & Hs & Hf).
  unfold segments at 1. rewrite (split_slashes_word x _ Hx).
  change ("/" +:+ s) with (String "/"%char s). rewrite Hs.
  rewrite append_empty_r. simpl. by rewrite Hn, Hf.
Qed.

(** Splitting what [join] put together gives the segments back. *)
Lemma segments_join l :
  Forall (fun w => is_segment w = true) l -> segments (join "/" l) = l.
Proof.
  induction 1 as [|x l Hx Hl IH]; [reflexivity|].
  destruct l as [|y l].
  - simpl. by apply segments_single.
  - change (join "/" (x :: y :: l)) with (x +:+ "/" +:+ join "/" (y :: l)).
    by rewrite (segments_word_slash _ _ Hx), IH.
Qed.

Lemma segments_join_skipn path i :
  segments (join "/" (skipn i (segments path))) = skipn i (segments path).
Proof.
  apply segments_join, Forall_drop, segments_are_segments.
Qed.

(** The paths of zero segments are the runs of slashes. *)
Lemma segments_nil_iff path : segments path = [] <-> only_slashes path = true.
Proof.
  induction path as [|c s IH]; [done|].
  simpl. destruct (is_slash c) eqn:Hc.
  - by rewrite (segments_leading_slash _ _ Hc).
  - split; [|done]. unfold segments. simpl. rewrite Hc.
    by destruct (split_slashes s).
Qed.

Lemma append_assoc x y z : (x +:+ y) +:+ z = x +:+ y +:+ z.
Proof.
  induction x as [|c x IH]; [reflexivity|].
  change ((String c x +:+ y) +:+ z) with (String c ((x +:+ y) +:+ z)).
  by rewrite IH.
Qed.

Lemma fold_slash_join xs : forall acc,
  fold_left (fun a y => a +:+ "/" +:+ y) xs acc = join "/" (acc :: xs).
Proof.
  induction xs as [|y xs IH]; intros acc; [reflexivity|].
  cbn [fold_left]. rewrite IH.
  change (join "/" (acc :: y :: xs)) with (acc +:+ "/" +:+ join "/" (y :: xs)).
  destruct xs as [|z xs]; [reflexivity|].
  change (join "/" ((acc +:+ "/" +:+ y) :: z :: xs))
    with ((acc +:+ "/" +:+ y) +:+ "/" +:+ join "/" (z :: xs)).
  change (join "/" (y :: z :: xs)) with (y +:+ "/" +:+ join "/" (z :: xs)).
  by rewrite !append_assoc.
Qed.

(** On a non-empty array the [reduce] of the dead-end message is a
    [join]; on the empty one it has nothing to start from. *)
Lemma reduce_slash_join l :
  reduce_slash l = match l with [] => None | _ => Some (join "/" l) end.
Proof. destruct l as [|x xs]; [reflexivity|]. simpl. by rewrite fold_slash_join. Qed.

Lemma slice_marker s : slice 6 ("/ipns/" +:+ s) = s.
Proof. reflexivity. Qed.

(** The first piece of a split and the segments after it. *)
Lemma segments_head_rest s :
  segments s =
    ((if nonempty (hd EmptyString (split_slashes s))
      then [hd EmptyString (split_slashes s)] else [])
     ++ List.filter nonempty (tl (split_slashes s)))%list.
Proof.
  unfold segments. pose proof (split_slashes_nonnil s).
  destruct (split_slashes s) as [|w ws]; [done|]. simpl.
  by destruct (nonempty w).
Qed.

Lemma split_slashes_app_slash p q :
  hd EmptyString (split_slashes (p +:+ "/" +:+ q))
    = hd EmptyString (split_slashes p)
  /\ List.filter nonempty (tl (split_slashes (p +:+ "/" +:+ q)))
     = (List.filter nonempty (tl (split_slashes p)) ++ segments q)%list.
Proof.
  induction p as [|c p [IHh IHt]].
  - change (EmptyString +:+ "/" +:+ q) with (String "/"%char q).
    destruct (split_slashes_leading_slash "/"%char q eq_refl) as (ws & -> & Hf).
    by split.
  - change (String c p +:+ "/" +:+ q) with (String c (p +:+ "/" +:+ q)).
    destruct (is_slash c) eqn:Hc.
    + destruct (split_slashes_leading_slash c (p +:+ "/" +:+ q) Hc)
        as (ws & -> & Hf).
      destruct (split_slashes_leading_slash c p Hc) as (ws' & -> & Hf').
      split; [done|]. cbn [tl]. rewrite Hf, Hf'.
      by rewrite (segments_head_rest (p +:+ "/" +:+ q)), IHh, IHt,
         (segments_head_rest p), app_assoc.
    + cbn [split_slashes]. rewrite Hc.
      pose proof (split_slashes_nonnil (p +:+ "/" +:+ q)).
      pose proof (split_slashes_nonnil p).
      destruct (split_slashes (p +:+ "/" +:+ q)) as [|w ws]; [done|].
      destruct (split_slashes p) as [|w' ws']; [done|].
      cbn [hd tl] in *. by rewrite IHh, IHt.
Qed.

(** Paths compose: the segments of two paths put together with a slash
    are the segments of the first followed by those of the second. *)
Lemma segments_app_slash p q :
  segments (p +:+ "/" +:+ q) = (segments p ++ segments q)%list.
Proof.
  destruct (split_slashes_app_slash p q) as [Hh Ht].
  by rewrite (segments_head_rest (p +:+ "/" +:+ q)), Hh, Ht,
     (segments_head_rest p), app_assoc.
Qed.

(** A path and its segments joined again split alike. *)
Lemma segments_join_segments path :
  segments (join "/" (segments path)) = segments path.
Proof. apply (segments_join_skipn path 0). Qed.

Lemma slice_app pre s : slice (String.length pre) (pre +:+ s) = s.
Proof. induction pre as [|c pre IH]; [reflexivity|]. exact IH. Qed.

Lemma slice_short n : forall s, (String.length s <= n)%nat -> slice n s = EmptyString.
Proof.
  induction n as [|n IH]; intros [|c s] Hs; simpl in *; try done; try lia.
  apply IH. lia.
Qed.

End StrFacts.

(** ** Facts about the resolver *)

Section ResolverFacts.

Context {collaborators : Collaborators} {runtime : Runtime}.

Import Str StrFacts.

(** The loop's test, [CID.asCID] first and [CID.parse] second, recognises
    exactly the embedded identifiers. *)
Lemma embedded_identifier_test v :
  match asCID v with
  | Some c => Some c
  | None => try_parse v
  end = embedded_identifier v.
Proof. by destruct v. Qed.

Lemma resolve_unfold fuel cid path options :
  resolve (S fuel) cid path options =
    match resolve_body cid path options with
    | (t, inl e) => (t, Some (inl e))
    | (t, inr (Return r)) => (t, Some (inr r))
    | (t, inr (Recurse cid' path' options')) =>
        let '(t', r) := resolve fuel cid' path' options' in ((t ++ t')%list, r)
    end.
Proof. reflexivity. Qed.

Section WalkFacts.

Variables (cid : CID) (decoded : Block) (options : option Options).
Variables (segs : list string) (curr : string) (rest : list string).

#[local] Abbreviation loop := (walk cid decoded options segs curr rest).

(** The loop calls no collaborator. *)
Lemma walk_silent todo : forall node i, (loop node i todo).1 = [].
Proof.
  induction todo as [|seg todo IH]; intros node i; simpl; [done|].
  destruct (index node seg) as [v| |e]; [|by destruct (reduce_slash _)|done].
  destruct (asCID v); [done|]. destruct (try_parse v); [done|]. apply IH.
Qed.

(** The jump: the first cursor that is an identifier, met after the
    segment at offset [j] of [todo], ends the loop with a tail call whose
    path starts again at that very segment. *)
Lemma walk_jump todo : forall node i j v c,
  cursor_after node (firstn (S j) todo) = Some v ->
  (j < length todo)%nat ->
  embedded_identifier v = Some c ->
  (forall k w, (k < j)%nat ->
     cursor_after node (firstn (S k) todo) = Some w ->
     embedded_identifier w = None) ->
  loop node i todo = ret (Recurse c (join "/" (skipn (i + j) segs)) options).
Proof.
  induction todo as [|seg todo IH]; intros node i j v c Hcur Hj Hemb Hclean;
    [simpl in Hj; lia|].
  cbn [firstn cursor_after] in Hcur. cbn [walk].
  destruct (index node seg) as [v'| |e] eqn:Hidx; [|done..].
  destruct j as [|j].
  - cbn in Hcur. injection Hcur as ->. rewrite Nat.add_0_r.
    rewrite <- embedded_identifier_test in Hemb.
    destruct (asCID v); [by injection Hemb as ->|]. by rewrite Hemb.
  - assert (embedded_identifier v' = None) as Hv'.
    { apply (Hclean 0%nat); [lia|]. cbn. by rewrite Hidx. }
    rewrite <- embedded_identifier_test in Hv'.
    destruct (asCID v'); [done|]. rewrite Hv'.
    rewrite (IH v' (S i) j v c Hcur); [|simpl in Hj; lia|done|].
    + by replace (S i + j)%nat with (i + S j)%nat by lia.
    + intros k w Hk Hw. apply (Hclean (S k)); [lia|].
      cbn [firstn cursor_after]. by rewrite Hidx.
Qed.

(** Conversely, a tail call out of the loop is such a jump. *)
Lemma walk_recurse_inv todo : forall node i t c p o,
  loop node i todo = (t, inr (Recurse c p o)) ->
  t = [] /\ o = options /\
  exists j v, (j < length todo)%nat /\
    p = join "/" (skipn (i + j) segs) /\
    cursor_after node (firstn (S j) todo) = Some v /\
    embedded_identifier v = Some c.
Proof.
  induction todo as [|seg todo IH]; intros node i t c p o Hw; [done|].
  cbn [walk] in Hw.
  destruct (index node seg) as [v'| |e] eqn:Hidx;
    [|by destruct (reduce_slash _)|done].
  pose proof (embedded_identifier_test v') as Htest.
  destruct (asCID v') as [c'|].
  - injection Hw as <- <- <- <-. split; [done|]. split; [done|].
    exists 0%nat, v'. rewrite Nat.add_0_r. cbn. rewrite Hidx.
    repeat split; [lia|done].
  - destruct (try_parse v') as [c'|].
    + injection Hw as <- <- <- <-. split; [done|]. split; [done|].
      exists 0%nat, v'. rewrite Nat.add_0_r. cbn. rewrite Hidx.
      repeat split; [lia|done].
    + destruct (IH _ _ _ _ _ _ Hw) as (-> & -> & j & v & Hj & -> & Hcur & Hemb).
      split; [done|]. split; [done|]. exists (S j), v.
      cbn [firstn cursor_after]. rewrite Hidx.
      replace (S i + j)%nat with (i + S j)%nat by lia.
      repeat split; [simpl; lia|done..].
Qed.

(** The dead end: when the cursor reached through the first [j] segments
    of [todo] has nothing under the next one, the loop builds its message
    from the [i + j] segments before it, and the [reduce] that does so
    needs at least one. *)
Lemma walk_undefined todo : forall node i j v seg,
  cursor_after node (firstn j todo) = Some v ->
  todo !! j = Some seg ->
  index v seg = Undefined ->
  (forall k w, (k < j)%nat ->
     cursor_after node (firstn (S k) todo) = Some w ->
     embedded_identifier w = None) ->
  loop node i todo =
    match firstn (i + j) segs with
    | [] => throw (TypeError "Reduce of empty array with no initial value")
    | consumed =>
        throw (dead_end
                 (dead_end_prefix cid +:+ "object has no property at path /"
                  +:+ join "/" consumed)
                 cid curr rest)
    end.
Proof.
  induction todo as [|seg0 todo IH]; intros node i j v seg Hcur Hseg Hidx Hclean;
    [done|].
  cbn [walk]. destruct j as [|j].
  - cbn in Hcur, Hseg. injection Hcur as ->. injection Hseg as ->.
    rewrite Hidx, Nat.add_0_r, reduce_slash_join.
    by destruct (firstn i segs).
  - cbn [firstn cursor_after] in Hcur. cbn in Hseg.
    destruct (index node seg0) as [v'| |e] eqn:Hidx0; [|done..].
    assert (embedded_identifier v' = None) as Hv'.
    { apply (Hclean 0%nat); [lia|]. cbn. by rewrite Hidx0. }
    rewrite <- embedded_identifier_test in Hv'.
    destruct (asCID v'); [done|]. rewrite Hv'.
    rewrite (IH v' (S i) j v seg Hcur Hseg Hidx).
    + by replace (S i + j)%nat with (i + S j)%nat by lia.
    + intros k w Hk Hw. apply (Hclean (S k)); [lia|].
      cbn [firstn cursor_after]. by rewrite Hidx0.
Qed.

End WalkFacts.

(** Past the codec check, with the block fetched and decoded, an
    activation has logged the two calls and goes on with the segments. *)
Lemma resolve_body_fetched cid path options bytes decoded :
  code cid <> kLibp2pKeyCodec ->
  block_get cid = inr bytes ->
  decoder_decode (code cid) (multihash_code cid) bytes = inr decoded ->
  resolve_body cid path options =
    let '(t, r) :=
      match segments path with
      | [] => ret (Return {| res_value := block_value decoded;
                             res_cid := block_cid decoded;
                             res_block := decoded |})
      | curr :: rest =>
          if (code cid =? pb_code)%Z then
            if followPb_is_false options then
              throw (dead_end
                       (dead_end_prefix cid +:+
                        "node is a DAG-PB node, but 'followPb' is set to 'false'")
                       cid curr rest)
            else
              match block_value decoded with
              | VPb node =>
                  match find (fun n => bool_decide (Name n = Some curr))
                             (Links node) with
                  | Some child =>
                      ret (Recurse (Hash child) (join "/" rest) options)
                  | None =>
                      throw (dead_end
                               (dead_end_prefix cid +:+ "no link to " +:+ curr)
                               cid curr rest)
                  end
              | _ => throw (TypeError "Cannot read properties of undefined (reading 'find')")
              end
          else
            if followIpld_is_false options then
              throw (dead_end
                       (dead_end_prefix cid +:+
                        "node is an IPLD node, but 'followIpld' is set to 'false'")
                       cid curr rest)
            else
              walk cid decoded options (curr :: rest) curr rest
                   (block_value decoded) 0 (curr :: rest)
      end in
    ((fetched cid bytes ++ t)%list, r).
Proof.
  intros Hcode Hget Hdec. unfold resolve_body, call_get, call_decode, bind.
  apply Z.eqb_neq in Hcode. rewrite Hcode, Hget, Hdec. cbv zeta.
  destruct (segments path) as [|curr rest]; [reflexivity|].
  match goal with
  | |- (let '(_, _) := (let '(_, _) := ?m in _) in _) = _ => by destruct m
  end.
Qed.

(** A tail call of one activation is the next activation of [resolve]:
    the logs are chained and the outcome is that of the callee. *)
Lemma resolve_tail_call fuel cid path options t cid' path' options' :
  resolve_body cid path options = (t, inr (Recurse cid' path' options')) ->
  resolve (S fuel) cid path options =
    let '(t', r) := resolve fuel cid' path' options' in ((t ++ t')%list, r).
Proof. intros H. by rewrite resolve_unfold, H. Qed.

Lemma resolve_throws fuel cid path options t e :
  resolve_body cid path options = (t, inl e) ->
  resolve (S fuel) cid path options = (t, Some (inl e)).
Proof. intros H. by rewrite resolve_unfold, H. Qed.

Lemma pb_code_not_key cid : code cid = pb_code -> code cid <> kLibp2pKeyCodec.
Proof. intros ->. done. Qed.

(** [Array.prototype.find] returns the first element that passes. *)
Lemma find_first_match {A} (f : A -> bool) pre x post :
  Forall (fun y => f y = false) pre -> f x = true ->
  find f (pre ++ x :: post) = Some x.
Proof.
  induction 1 as [|y pre Hy _ IH]; intros Hx; simpl.
  - by rewrite Hx.
  - rewrite Hy. by apply IH.
Qed.

Lemma find_no_match {A} (f : A -> bool) l :
  Forall (fun y => f y = false) l -> find f l = None.
Proof. induction 1 as [|y l Hy _ IH]; simpl; [done|]. by rewrite Hy. Qed.

(** A failure of the block source or of the registry is what the caller
    sees, as it is, and ends the call. *)
Lemma resolve_fetch_failure cid path options e fuel :
  code cid <> kLibp2pKeyCodec ->
  block_get cid = inl e ->
  resolve (S fuel) cid path options = ([BlockGet cid], Some (inl e)).
Proof.
  intros Hkey%Z.eqb_neq Hget. apply resolve_throws.
  unfold resolve_body, call_get, bind. by rewrite Hkey, Hget.
Qed.

(** The same for the registry: its failure comes after one [get] and one
    [decode], and is thrown as it is. *)
Lemma resolve_decode_failure cid path options bytes e fuel :
  code cid <> kLibp2pKeyCodec ->
  block_get cid = inr bytes ->
  decoder_decode (code cid) (multihash_code cid) bytes = inl e ->
  resolve (S fuel) cid path options = (fetched cid bytes, Some (inl e)).
Proof.
  intros Hkey%Z.eqb_neq Hget Hdec. apply resolve_throws.
  unfold resolve_body, call_get, call_decode, bind.
  by rewrite Hkey, Hget, Hdec.
Qed.

(** C10.  A CID whose codec is the reserved naming-key codec 0x72
    (libp2p-key) makes [resolve] throw its TypeError with an empty log:
    the block source's [get] and the registry's [decode] are not called,
    whatever the path and the options. *)
Theorem resolve_rejects_libp2p_key cid path options fuel :
  code cid = kLibp2pKeyCodec ->
  resolve (S fuel) cid path options =
    ([], Some (inl (TypeError
       ("Received CID with codec for 'libp2p-key'. " +:+
        "If you need to resolve IPNS into a CID, call resolveIpns() first")))).
Proof.
  intros Hcode. rewrite resolve_unfold. unfold resolve_body.
  by rewrite Hcode, Z.eqb_refl.
Qed.

(** C8.  For an identifier whose codec is not the naming-key codec and a
    path that splits into zero segments, [resolve] returns right after the
    fetch and the decode (the log holds these two calls and nothing else):
    the decoded root value, the identifier the registry derived for the
    block, and the decoded node.  The decoded value is arbitrary here: no
    link and no key of it is looked at. *)
Theorem resolve_root_path cid path options bytes decoded fuel :
  code cid <> kLibp2pKeyCodec ->
  segments path = [] ->
  block_get cid = inr bytes ->
  decoder_decode (code cid) (multihash_code cid) bytes = inr decoded ->
  resolve (S fuel) cid path options =
    (fetched cid bytes,
     Some (inr {| res_value := block_value decoded;
                  res_cid := block_cid decoded;
                  res_block := decoded |})).
Proof.
  intros Hcode Hsegs Hget Hdec.
  rewrite resolve_unfold, (resolve_body_fetched _ _ _ _ _ Hcode Hget Hdec), Hsegs.
  reflexivity.
Qed.

(** C7.  On a linked-file (DAG-PB) block, with [followPb: false] and a
    non-empty path, [resolve] raises the Dead-End Error whose [at] is the
    first segment and whose [remaining] is the other segments joined with
    "/".  The decoded node is arbitrary: whether a link matches the
    segment plays no part, and nothing is traversed (the log stops after
    the fetch and the decode of this block). *)
Theorem resolve_pb_following_disabled cid path o bytes decoded curr rest fuel :
  code cid = pb_code ->
  followPb o = Some false ->
  block_get cid = inr bytes ->
  decoder_decode (code cid) (multihash_code cid) bytes = inr decoded ->
  segments path = curr :: rest ->
  resolve (S fuel) cid path (Some o) =
    (fetched cid bytes,
     Some (inl (DeadEnd
       {| message := dead_end_prefix cid +:+
            "node is a DAG-PB node, but 'followPb' is set to 'false'";
          dead_cid := cid;
          dead_at := curr;
          remaining := join "/" rest |}))).
Proof.
  intros Hpb Hoff Hget Hdec Hsegs.
  apply resolve_throws.
  rewrite (resolve_body_fetched _ _ _ _ _ (pb_code_not_key _ Hpb) Hget Hdec).
  rewrite Hsegs, Hpb, Z.eqb_refl. unfold followPb_is_false.
  destruct o as [fpb fipld]. simpl in Hoff. by rewrite Hoff.
Qed.

(** C4.  On a linked-file (DAG-PB) block, with following enabled and
    first segment [curr]: the step continues if and only if some link is
    named exactly [curr]; it then is a tail call on the target of the
    first such link in the order of [Links], with the remaining segments
    joined with "/" and the same options; and when no link is named
    [curr], [resolve] raises the Dead-End Error with [at = curr] and
    [remaining] the other segments joined with "/". *)
Theorem resolve_pb_link_lookup cid path options bytes decoded node curr rest :
  code cid = pb_code ->
  followPb_is_false options = false ->
  block_get cid = inr bytes ->
  decoder_decode (code cid) (multihash_code cid) bytes = inr decoded ->
  block_value decoded = VPb node ->
  segments path = curr :: rest ->
  ((exists l, l ∈ Links node /\ Name l = Some curr) <->
   (exists t c p o,
      resolve_body cid path options = (t, inr (Recurse c p o))))
  /\ (forall pre child post fuel,
        Links node = (pre ++ child :: post)%list ->
        Forall (fun l => Name l <> Some curr) pre ->
        Name child = Some curr ->
        resolve_body cid path options =
          (fetched cid bytes,
           inr (Recurse (Hash child) (join "/" rest) options))
        /\ resolve (S fuel) cid path options =
             let '(t', r) := resolve fuel (Hash child) (join "/" rest) options in
             ((fetched cid bytes ++ t')%list, r))
  /\ (forall fuel,
        Forall (fun l => Name l <> Some curr) (Links node) ->
        resolve (S fuel) cid path options =
          (fetched cid bytes,
           Some (inl (DeadEnd
             {| message := dead_end_prefix cid +:+ "no link to " +:+ curr;
                dead_cid := cid;
                dead_at := curr;
                remaining := join "/" rest |})))).
Proof.
  intros Hpb Hon Hget Hdec Hval Hsegs.
  pose proof (resolve_body_fetched cid path options bytes decoded
                (pb_code_not_key _ Hpb) Hget Hdec) as Hbody.
  rewrite Hsegs, Hpb, Z.eqb_refl, Hon, Hval in Hbody.
  split; [|split].
  - rewrite Hbody. split.
    + intros (l & Hin & Hname).
      destruct (find _ (Links node)) as [child|] eqn:Hfind.
      * by eexists _, _, _, _.
      * apply list_elem_of_In in Hin.
        pose proof (find_none _ _ Hfind l Hin) as Hf.
        by apply bool_decide_eq_false in Hf.
    + intros (t & c & p & o & Hstep).
      destruct (find _ (Links node)) as [child|] eqn:Hfind; [|done].
      apply find_some in Hfind as [Hin Hname].
      exists child. split; [by apply list_elem_of_In|].
      by apply bool_decide_eq_true in Hname.
  - intros pre child post fuel Hlinks Hpre Hchild.
    assert (resolve_body cid path options =
              (fetched cid bytes,
               inr (Recurse (Hash child) (join "/" rest) options))) as Hstep.
    { rewrite Hbody, Hlinks, find_first_match; [done| |by apply bool_decide_eq_true].
      eapply Forall_impl; [exact Hpre|]. intros l Hl.
      by apply bool_decide_eq_false. }
    split; [done|]. by apply resolve_tail_call.
  - intros fuel Hnone. apply resolve_throws.
    rewrite Hbody, find_no_match; [done|].
    eapply Forall_impl; [exact Hnone|]. intros l Hl.
    by apply bool_decide_eq_false.
Qed.

(** C1.  On a generic block (codec neither libp2p-key nor DAG-PB,
    following not disabled), let [v] be the cursor the walk holds after
    consuming the segment at position [i], no cursor before it having been
    an identifier.  If [v] is an embedded identifier [c] (typed as one, or
    a string that parses as one), the activation ends there with a tail
    call on [c], under the same options, whose path is the segments from
    position [i] on, joined with "/": the segment just consumed comes
    first in the path of the recursive call. *)
Theorem resolve_embedded_identifier_jump
    cid path options bytes decoded i seg v c fuel :
  code cid <> kLibp2pKeyCodec ->
  code cid <> pb_code ->
  followIpld_is_false options = false ->
  block_get cid = inr bytes ->
  decoder_decode (code cid) (multihash_code cid) bytes = inr decoded ->
  segments path !! i = Some seg ->
  cursor_after (block_value decoded) (firstn (S i) (segments path)) = Some v ->
  (forall k w, (k < i)%nat ->
     cursor_after (block_value decoded) (firstn (S k) (segments path)) = Some w ->
     embedded_identifier w = None) ->
  embedded_identifier v = Some c ->
  let path' := join "/" (skipn i (segments path)) in
  resolve_body cid path options = (fetched cid bytes, inr (Recurse c path' options))
  /\ resolve (S fuel) cid path options =
       (let '(t', r) := resolve fuel c path' options in
        ((fetched cid bytes ++ t')%list, r))
  /\ segments path' = seg :: skipn (S i) (segments path).
Proof.
  intros Hkey Hpb Hon Hget Hdec Hseg Hcur Hclean Hemb path'.
  assert (resolve_body cid path options =
            (fetched cid bytes, inr (Recurse c path' options))) as Hstep.
  { rewrite (resolve_body_fetched _ _ _ _ _ Hkey Hget Hdec).
    destruct (segments path) as [|curr rest] eqn:Hsegs; [done|].
    apply Z.eqb_neq in Hpb. rewrite Hpb, Hon.
    rewrite (walk_jump _ _ _ _ _ _ _ _ 0%nat i v c Hcur); [done| |done..].
    by apply lookup_lt_Some in Hseg. }
  split; [done|]. split; [by apply resolve_tail_call|].
  subst path'. rewrite segments_join_skipn.
  by apply drop_S.
Qed.

(** C3, as the code has it.  An activation that continues with a tail
    call keeps the options and is of one of two kinds.  A link hop on a
    DAG-PB block passes on the segments after the first: exactly one
    segment is consumed.  A jump on a generic block, taken at the position
    [i] where the walk met an embedded identifier, passes on the segments
    from position [i] on: [i] segments are consumed, none when the
    identifier sits under the first segment, and the callee always
    receives at least one segment. *)
Theorem resolve_step_consumption cid path options t c p o :
  resolve_body cid path options = (t, inr (Recurse c p o)) ->
  o = options /\
  ((code cid = pb_code /\
    segments p = tl (segments path) /\
    S (length (segments p)) = length (segments path))
   \/
   (code cid <> pb_code /\
    exists bytes decoded i v,
      block_get cid = inr bytes /\
      decoder_decode (code cid) (multihash_code cid) bytes = inr decoded /\
      cursor_after (block_value decoded) (firstn (S i) (segments path)) = Some v /\
      embedded_identifier v = Some c /\
      (i < length (segments path))%nat /\
      segments p = skipn i (segments path) /\
      (length (segments p) + i)%nat = length (segments path))).
Proof.
  intros Hstep.
  destruct (decide (code cid = kLibp2pKeyCodec)) as [Hkey|Hkey].
  { unfold resolve_body in Hstep. by rewrite Hkey, Z.eqb_refl in Hstep. }
  destruct (block_get cid) as [e|bytes] eqn:Hget.
  { unfold resolve_body, call_get, bind in Hstep.
    apply Z.eqb_neq in Hkey. by rewrite Hkey, Hget in Hstep. }
  destruct (decoder_decode (code cid) (multihash_code cid) bytes)
    as [e|decoded] eqn:Hdec.
  { unfold resolve_body, call_get, call_decode, bind in Hstep.
    apply Z.eqb_neq in Hkey. by rewrite Hkey, Hget, Hdec in Hstep. }
  rewrite (resolve_body_fetched _ _ _ _ _ Hkey Hget Hdec) in Hstep.
  pose proof (segments_are_segments path) as Hgood.
  destruct (segments path) as [|curr rest] eqn:Hsegs; [done|].
  destruct (code cid =? pb_code)%Z eqn:Hpb.
  - apply Z.eqb_eq in Hpb.
    destruct (followPb_is_false options); [done|].
    destruct (block_value decoded) as [| | | | | | | |node|]; try done.
    destruct (find _ (Links node)) as [child|]; [|done].
    injection Hstep as <- <- <- <-. split; [done|]. left.
    inversion Hgood as [|? ? _ Hrest]; subst.
    rewrite (segments_join _ Hrest). by repeat split.
  - apply Z.eqb_neq in Hpb.
    destruct (followIpld_is_false options); [done|].
    destruct (walk _ _ _ _ _ _ _ _ _) as [t0 r0] eqn:Hwalk.
    injection Hstep as <- ->.
    apply walk_recurse_inv in Hwalk
      as (-> & -> & i & v & Hi & -> & Hcur & Hemb).
    split; [done|]. right. split; [done|].
    exists bytes, decoded, i, v. simpl (0 + i)%nat.
    assert (segments (join "/" (skipn i (curr :: rest))) = skipn i (curr :: rest))
      as Hround by (by apply segments_join, Forall_drop).
    repeat split; try done.
    rewrite Hround, length_drop. lia.
Qed.

(** C2, as the code has it.  On a generic block whose decoded value is
    the map [{"link": s}], [s] spelling an identifier [c], the call
    [resolve(id, "/link/extra")] meets [c] under "link" and continues with
    [resolve(c, "link/extra")]: the path of the recursive call starts
    again at "link". *)
Theorem resolve_link_extra cid options bytes decoded s c fuel :
  code cid <> kLibp2pKeyCodec ->
  code cid <> pb_code ->
  followIpld_is_false options = false ->
  block_get cid = inr bytes ->
  decoder_decode (code cid) (multihash_code cid) bytes = inr decoded ->
  block_value decoded = VMap {[ "link" := VStr s ]} ->
  CID_parse s = inr c ->
  resolve_body cid "/link/extra" options =
    (fetched cid bytes, inr (Recurse c "link/extra" options))
  /\ resolve (S fuel) cid "/link/extra" options =
       (let '(t', r) := resolve fuel c "link/extra" options in
        ((fetched cid bytes ++ t')%list, r))
  /\ segments "link/extra" = ["link"; "extra"].
Proof.
  intros Hkey Hpb Hon Hget Hdec Hval Hparse.
  assert (resolve_body cid "/link/extra" options =
            (fetched cid bytes, inr (Recurse c "link/extra" options))) as Hstep.
  { rewrite (resolve_body_fetched _ _ _ _ _ Hkey Hget Hdec).
    change (segments "/link/extra") with ["link"; "extra"].
    apply Z.eqb_neq in Hpb. rewrite Hpb, Hon, Hval.
    cbn [walk index get own_property].
    rewrite lookup_singleton_eq. cbn [asCID try_parse]. by rewrite Hparse. }
  split; [done|]. split; [by apply resolve_tail_call|reflexivity].
Qed.

(** What the generic walk does when the cursor reached through the first
    [j] segments has nothing under the next one.  With [j >= 1] it is the
    Dead-End Error: [at] and [remaining] are the first segment and the
    others joined, whatever [j] is, and the message names the [j] segments
    consumed.  With [j = 0] the message cannot be built, and the TypeError
    of [reduce] is what the caller sees. *)
Lemma resolve_generic_undefined cid path options bytes decoded j v seg fuel :
  code cid <> kLibp2pKeyCodec ->
  code cid <> pb_code ->
  followIpld_is_false options = false ->
  block_get cid = inr bytes ->
  decoder_decode (code cid) (multihash_code cid) bytes = inr decoded ->
  cursor_after (block_value decoded) (firstn j (segments path)) = Some v ->
  segments path !! j = Some seg ->
  index v seg = Undefined ->
  (forall k w, (k < j)%nat ->
     cursor_after (block_value decoded) (firstn (S k) (segments path)) = Some w ->
     embedded_identifier w = None) ->
  resolve (S fuel) cid path options =
    (fetched cid bytes,
     Some (inl
       match j with
       | O => TypeError "Reduce of empty array with no initial value"
       | S _ =>
           DeadEnd
             {| message := dead_end_prefix cid +:+
                  "object has no property at path /" +:+
                  join "/" (firstn j (segments path));
                dead_cid := cid;
                dead_at := hd EmptyString (segments path);
                remaining := join "/" (tl (segments path)) |}
       end)).
Proof.
  intros Hkey Hpb Hon Hget Hdec Hcur Hseg Hidx Hclean.
  apply resolve_throws.
  rewrite (resolve_body_fetched _ _ _ _ _ Hkey Hget Hdec).
  destruct (segments path) as [|curr rest] eqn:Hsegs; [done|].
  apply Z.eqb_neq in Hpb. rewrite Hpb, Hon.
  rewrite (walk_undefined _ _ _ _ _ _ _ _ 0%nat j v seg Hcur Hseg Hidx Hclean).
  by destruct j.
Qed.

(** C9, as the code has it.  [resolveIpns] hands the marker followed by
    the name (a string as it is, an identifier by its text) to the name
    resolver, once.  From what the resolver yields it keeps the last
    string only, cuts the six characters of the marker off its front, and
    its outcome is that of parsing the rest as an identifier: the
    identifier, or the parser's own error.  An empty sequence is a
    TypeError, and an error of the resolver is passed on as it is. *)
Theorem resolveIpns_keeps_last name timeout :
  let addr :=
    "/ipns/" +:+ match name with inr s => s | inl c => CID_toString c end in
  let log := [NameResolve addr true timeout] in
  (forall earlier last,
     name_resolve addr true timeout = ((earlier ++ [last])%list, None) ->
     resolveIpns name timeout = (log, CID_parse (slice 6 last)))
  /\ (forall text, slice 6 ("/ipns/" +:+ text) = text)
  /\ (name_resolve addr true timeout = ([], None) ->
      resolveIpns name timeout =
        (log, inl (TypeError "Cannot read properties of null (reading 'slice')")))
  /\ (forall emitted e,
        name_resolve addr true timeout = (emitted, Some e) ->
        resolveIpns name timeout = (log, inl e)).
Proof.
  intros addr log. unfold resolveIpns, call_name_resolve, bind. fold addr.
  split; [|split; [|split]].
  - intros earlier last ->. rewrite fold_left_app. cbn [fold_left].
    by destruct (CID_parse (slice 6 last)).
  - intros text. apply slice_marker.
  - by intros ->.
  - by intros emitted e ->.
Qed.

End ResolverFacts.

(** ** More of the resolver: the walk that succeeds, the other ways out,
    the log, whole runs *)

Section ResolverMore.

Context {collaborators : Collaborators} {runtime : Runtime}.

Import Str StrFacts.

Section WalkMore.

Variables (cid : CID) (decoded : Block) (options : option Options).
Variables (segs : list string) (curr : string) (rest : list string).

#[local] Abbreviation run := (walk cid decoded options segs curr rest).

(** The walk that reaches the end of the segments returns the cursor. *)
Lemma walk_done todo : forall node i v,
  cursor_after node todo = Some v ->
  (forall k w, (k < length todo)%nat ->
     cursor_after node (firstn (S k) todo) = Some w ->
     embedded_identifier w = None) ->
  run node i todo =
    ret (Return {| res_value := v; res_cid := cid; res_block := decoded |}).
Proof.
  induction todo as [|seg todo IH]; intros node i v Hcur Hclean.
  - cbn in Hcur. by injection Hcur as ->.
  - cbn [cursor_after] in Hcur. cbn [walk].
    destruct (index node seg) as [v'| |e] eqn:Hidx; [|done..].
    assert (embedded_identifier v' = None) as Hv'.
    { apply (Hclean 0%nat); [simpl; lia|]. cbn. by rewrite Hidx. }
    rewrite <- embedded_identifier_test in Hv'.
    destruct (asCID v'); [done|]. rewrite Hv'.
    apply IH; [done|]. intros k w Hk Hw. apply (Hclean (S k)); [simpl; lia|].
    cbn [firstn cursor_after]. by rewrite Hidx.
Qed.

(** An access that throws ends the walk with what it threw. *)
Lemma walk_raises todo : forall node i j v seg e,
  cursor_after node (firstn j todo) = Some v ->
  todo !! j = Some seg ->
  index v seg = Raises e ->
  (forall k w, (k < j)%nat ->
     cursor_after node (firstn (S k) todo) = Some w ->
     embedded_identifier w = None) ->
  run node i todo = throw e.
Proof.
  induction todo as [|seg0 todo IH]; intros node i j v seg e Hcur Hseg Hidx Hclean;
    [done|].
  cbn [walk]. destruct j as [|j].
  - cbn in Hcur, Hseg. injection Hcur as ->. injection Hseg as ->.
    by rewrite Hidx.
  - cbn [firstn cursor_after] in Hcur. cbn in Hseg.
    destruct (index node seg0) as [v'| |e'] eqn:Hidx0; [|done..].
    assert (embedded_identifier v' = None) as Hv'.
    { apply (Hclean 0%nat); [lia|]. cbn. by rewrite Hidx0. }
    rewrite <- embedded_identifier_test in Hv'.
    destruct (asCID v'); [done|]. rewrite Hv'.
    apply (IH v' (S i) j v seg e Hcur Hseg Hidx).
    intros k w Hk Hw. apply (Hclean (S k)); [lia|].
    cbn [firstn cursor_after]. by rewrite Hidx0.
Qed.

(** What a walk that returns has returned. *)
Lemma walk_return_inv todo : forall node i t r,
  run node i todo = (t, inr (Return r)) ->
  res_cid r = cid /\ res_block r = decoded /\
  cursor_after node todo = Some (res_value r) /\
  (todo <> [] -> embedded_identifier (res_value r) = None).
Proof.
  induction todo as [|seg todo IH]; intros node i t r Hrun.
  - cbn in Hrun. injection Hrun as <- <-. by repeat split.
  - cbn [walk] in Hrun. cbn [cursor_after].
    destruct (index node seg) as [v'| |e] eqn:Hidx;
      [|by destruct (reduce_slash _)|done].
    pose proof (embedded_identifier_test v') as Htest.
    destruct (asCID v'); [done|]. destruct (try_parse v'); [done|].
    destruct (IH _ _ _ _ Hrun) as (Hc & Hb & Hcur & Hemb).
    repeat split; try done. intros _.
    destruct todo as [|seg' todo]; [|by apply Hemb].
    cbn in Hcur. by injection Hcur as <-.
Qed.

End WalkMore.

Lemma segments_slash_single k :
  is_segment k = true -> segments ("/" +:+ k) = [k].
Proof.
  intros Hk. change ("/" +:+ k) with (String "/"%char k).
  by rewrite segments_leading_slash, segments_single.
Qed.

(** The generic walk that succeeds.  On a generic block, when the segments
    lead, access by access, to a cursor [v] and no cursor on the way, [v]
    included, is an embedded identifier, [resolve] returns [v] together
    with the identifier it was called with and the decoded block, after
    this block's fetch and decode only. *)
Theorem resolve_generic_walk_returns cid path options bytes decoded v fuel :
  code cid <> kLibp2pKeyCodec ->
  code cid <> pb_code ->
  followIpld_is_false options = false ->
  block_get cid = inr bytes ->
  decoder_decode (code cid) (multihash_code cid) bytes = inr decoded ->
  segments path <> [] ->
  cursor_after (block_value decoded) (segments path) = Some v ->
  (forall k w, (k < length (segments path))%nat ->
     cursor_after (block_value decoded) (firstn (S k) (segments path)) = Some w ->
     embedded_identifier w = None) ->
  resolve (S fuel) cid path options =
    (fetched cid bytes,
     Some (inr {| res_value := v; res_cid := cid; res_block := decoded |})).
Proof.
  intros Hkey Hpb Hon Hget Hdec Hne Hcur Hclean.
  rewrite resolve_unfold, (resolve_body_fetched _ _ _ _ _ Hkey Hget Hdec).
  destruct (segments path) as [|curr rest] eqn:Hsegs; [done|].
  apply Z.eqb_neq in Hpb. rewrite Hpb, Hon.
  by rewrite (walk_done _ _ _ _ _ _ _ _ 0%nat v Hcur Hclean).
Qed.

(** One key of a map at the root: [resolve(cid, "/" + k)] is the entry
    under [k], when that entry is no embedded identifier. *)
Theorem resolve_map_key cid options bytes decoded m k v fuel :
  code cid <> kLibp2pKeyCodec ->
  code cid <> pb_code ->
  followIpld_is_false options = false ->
  block_get cid = inr bytes ->
  decoder_decode (code cid) (multihash_code cid) bytes = inr decoded ->
  block_value decoded = VMap m ->
  is_segment k = true ->
  m !! k = Some v ->
  embedded_identifier v = None ->
  resolve (S fuel) cid ("/" +:+ k) options =
    (fetched cid bytes,
     Some (inr {| res_value := v; res_cid := cid; res_block := decoded |})).
Proof.
  intros Hkey Hpb Hon Hget Hdec Hval Hk Hm Hv.
  rewrite resolve_unfold, (resolve_body_fetched _ _ _ _ _ Hkey Hget Hdec).
  rewrite (segments_slash_single _ Hk).
  apply Z.eqb_neq in Hpb. rewrite Hpb, Hon, Hval.
  rewrite (walk_done _ _ _ _ _ _ [k] (VMap m) 0%nat v); [done| |].
  - cbn. by rewrite Hm.
  - intros i w Hi. destruct i as [|i]; [|simpl in Hi; lia].
    cbn. rewrite Hm. by intros [= <-].
Qed.

(** One index of a sequence at the root: the segment goes through
    [JSON.parse], and the element under the index it spells is returned,
    when that element is no embedded identifier. *)
Theorem resolve_sequence_index cid options bytes decoded l seg key n v fuel :
  code cid <> kLibp2pKeyCodec ->
  code cid <> pb_code ->
  followIpld_is_false options = false ->
  block_get cid = inr bytes ->
  decoder_decode (code cid) (multihash_code cid) bytes = inr decoded ->
  block_value decoded = VList l ->
  is_segment seg = true ->
  JSON_key seg = Some key ->
  array_index key = Some n ->
  l !! n = Some v ->
  embedded_identifier v = None ->
  resolve (S fuel) cid ("/" +:+ seg) options =
    (fetched cid bytes,
     Some (inr {| res_value := v; res_cid := cid; res_block := decoded |})).
Proof.
  intros Hkey Hpb Hon Hget Hdec Hval Hseg Hjson Hidx Hl Hv.
  rewrite resolve_unfold, (resolve_body_fetched _ _ _ _ _ Hkey Hget Hdec).
  rewrite (segments_slash_single _ Hseg).
  apply Z.eqb_neq in Hpb. rewrite Hpb, Hon, Hval.
  assert (index (VList l) seg = Found v) as Hfound.
  { cbn. by rewrite Hjson, Hidx, Hl. }
  rewrite (walk_done _ _ _ _ _ _ [seg] (VList l) 0%nat v); [done| |].
  - cbn [cursor_after]. by rewrite Hfound.
  - intros i w Hi. destruct i as [|i]; [|simpl in Hi; lia].
    cbn [firstn cursor_after]. rewrite Hfound. by intros [= <-].
Qed.

(** Any segment applied to a [null] cursor: the property access throws
    a TypeError, and that, not a Dead-End Error, is what [resolve] throws,
    at whatever depth the [null] was reached. *)
Theorem resolve_null_cursor cid path options bytes decoded j seg fuel :
  code cid <> kLibp2pKeyCodec ->
  code cid <> pb_code ->
  followIpld_is_false options = false ->
  block_get cid = inr bytes ->
  decoder_decode (code cid) (multihash_code cid) bytes = inr decoded ->
  cursor_after (block_value decoded) (firstn j (segments path)) = Some VNull ->
  segments path !! j = Some seg ->
  (forall k w, (k < j)%nat ->
     cursor_after (block_value decoded) (firstn (S k) (segments path)) = Some w ->
     embedded_identifier w = None) ->
  resolve (S fuel) cid path options =
    (fetched cid bytes,
     Some (inl (TypeError "Cannot read properties of null"))).
Proof.
  intros Hkey Hpb Hon Hget Hdec Hcur Hseg Hclean.
  apply resolve_throws.
  rewrite (resolve_body_fetched _ _ _ _ _ Hkey Hget Hdec).
  destruct (segments path) as [|curr rest] eqn:Hsegs; [done|].
  apply Z.eqb_neq in Hpb. rewrite Hpb, Hon.
  by rewrite (walk_raises _ _ _ _ _ _ _ _ 0%nat j VNull seg _ Hcur Hseg eq_refl Hclean).
Qed.

(** A segment that [JSON.parse] rejects, applied to a sequence: the
    SyntaxError of [JSON.parse] is what [resolve] throws, at whatever
    depth the sequence was reached. *)
Theorem resolve_sequence_bad_json cid path options bytes decoded j l seg fuel :
  code cid <> kLibp2pKeyCodec ->
  code cid <> pb_code ->
  followIpld_is_false options = false ->
  block_get cid = inr bytes ->
  decoder_decode (code cid) (multihash_code cid) bytes = inr decoded ->
  cursor_after (block_value decoded) (firstn j (segments path)) = Some (VList l) ->
  segments path !! j = Some seg ->
  JSON_key seg = None ->
  (forall k w, (k < j)%nat ->
     cursor_after (block_value decoded) (firstn (S k) (segments path)) = Some w ->
     embedded_identifier w = None) ->
  resolve (S fuel) cid path options =
    (fetched cid bytes,
     Some (inl (SyntaxError "Unexpected token in JSON"))).
Proof.
  intros Hkey Hpb Hon Hget Hdec Hcur Hseg Hjson Hclean.
  apply resolve_throws.
  rewrite (resolve_body_fetched _ _ _ _ _ Hkey Hget Hdec).
  destruct (segments path) as [|curr rest] eqn:Hsegs; [done|].
  apply Z.eqb_neq in Hpb. rewrite Hpb, Hon.
  rewrite (walk_raises _ _ _ _ _ _ _ _ 0%nat j (VList l) seg
             (SyntaxError "Unexpected token in JSON") Hcur Hseg); [done| |done].
  cbn. by rewrite Hjson.
Qed.

(** With [followIpld: false], a generic block and a non-empty path:
    the Dead-End Error, [at] the first segment and [remaining] the others
    joined, whatever the decoded value holds. *)
Theorem resolve_ipld_following_disabled
    cid path o bytes decoded curr rest fuel :
  code cid <> kLibp2pKeyCodec ->
  code cid <> pb_code ->
  followIpld o = Some false ->
  block_get cid = inr bytes ->
  decoder_decode (code cid) (multihash_code cid) bytes = inr decoded ->
  segments path = curr :: rest ->
  resolve (S fuel) cid path (Some o) =
    (fetched cid bytes,
     Some (inl (DeadEnd
       {| message := dead_end_prefix cid +:+
            "node is an IPLD node, but 'followIpld' is set to 'false'";
          dead_cid := cid;
          dead_at := curr;
          remaining := join "/" rest |}))).
Proof.
  intros Hkey Hpb Hoff Hget Hdec Hsegs.
  apply resolve_throws.
  rewrite (resolve_body_fetched _ _ _ _ _ Hkey Hget Hdec), Hsegs.
  apply Z.eqb_neq in Hpb. rewrite Hpb. unfold followIpld_is_false.
  destruct o as [fpb fipld]. simpl in Hoff. by rewrite Hoff.
Qed.

(** An activation reads its path through [segments] only. *)
Lemma resolve_body_segments cid p q options :
  segments p = segments q ->
  resolve_body cid p options = resolve_body cid q options.
Proof. intros H. unfold resolve_body. by rewrite H. Qed.

Lemma resolve_segments fuel cid p q options :
  segments p = segments q ->
  resolve fuel cid p options = resolve fuel cid q options.
Proof.
  intros H. destruct fuel as [|fuel]; [done|].
  by rewrite !resolve_unfold, (resolve_body_segments cid p q options H).
Qed.

(** Slashes at either end of the path and repeated slashes inside it
    change nothing: [resolve] called with the path's segments joined by
    single slashes has the same outcome and the same log. *)
Theorem resolve_path_normal_form fuel cid path options :
  resolve fuel cid (join "/" (segments path)) options
  = resolve fuel cid path options.
Proof. apply resolve_segments, segments_join_segments. Qed.

(** The log an activation leaves: nothing when the codec is libp2p-key, a
    single [get] when it failed, and otherwise the [get] and the [decode]
    of this block. *)
Lemma resolve_body_log cid path options :
  (code cid = kLibp2pKeyCodec /\ (resolve_body cid path options).1 = [] /\
   exists e, (resolve_body cid path options).2 = inl e)
  \/ (code cid <> kLibp2pKeyCodec /\
      exists e, block_get cid = inl e /\
        resolve_body cid path options = ([BlockGet cid], inl e))
  \/ (code cid <> kLibp2pKeyCodec /\
      exists bytes, block_get cid = inr bytes /\
        (resolve_body cid path options).1 = fetched cid bytes).
Proof.
  destruct (decide (code cid = kLibp2pKeyCodec)) as [Hkey|Hkey].
  { left. unfold resolve_body. rewrite Hkey, Z.eqb_refl. eauto. }
  right. destruct (block_get cid) as [e|bytes] eqn:Hget.
  { left. split; [done|]. exists e. split; [done|].
    unfold resolve_body, call_get, bind.
    apply Z.eqb_neq in Hkey. by rewrite Hkey, Hget. }
  right. split; [done|]. exists bytes. split; [done|].
  destruct (decoder_decode (code cid) (multihash_code cid) bytes)
    as [e|decoded] eqn:Hdec.
  { unfold resolve_body, call_get, call_decode, bind.
    apply Z.eqb_neq in Hkey. by rewrite Hkey, Hget, Hdec. }
  rewrite (resolve_body_fetched _ _ _ _ _ Hkey Hget Hdec).
  destruct (segments path) as [|curr rest]; [done|].
  destruct (code cid =? pb_code)%Z.
  - destruct (followPb_is_false options); [done|].
    destruct (block_value decoded) as [| | | | | | | |node|]; try done.
    by destruct (find _ (Links node)).
  - destruct (followIpld_is_false options); [done|].
    pose proof (walk_silent cid decoded options (curr :: rest) curr rest
                  (curr :: rest) (block_value decoded) 0%nat) as Hsilent.
    destruct (walk _ _ _ _ _ _ _ _ _) as [t r]. simpl in Hsilent. subst t.
    by rewrite app_nil_r.
Qed.

Lemma paired_fetched_app cid bytes log :
  code cid <> kLibp2pKeyCodec ->
  block_get cid = inr bytes ->
  paired log ->
  paired (fetched cid bytes ++ log).
Proof. intros Hkey Hget Hlog. simpl. by repeat split. Qed.

(** The log of [resolve] is a chain of rounds, one per block visited:
    the [get] of an identifier that is not a libp2p-key, then the [decode]
    of the very bytes that [get] returned, under that identifier's codec
    and hash codes.  Only a [get] that failed stands alone, and it is the
    last entry.  The name resolver is never called. *)
Theorem resolve_log_paired fuel : forall cid path options,
  paired (resolve fuel cid path options).1.
Proof.
  induction fuel as [|fuel IH]; intros cid path options; [done|].
  rewrite resolve_unfold.
  destruct (resolve_body_log cid path options)
    as [(Hkey & Hlog & e & Hres) | [(Hkey & e & Hget & Hbody)
                                   | (Hkey & bytes & Hget & Hlog)]].
  - destruct (resolve_body cid path options) as [t [e'|st]]; simpl in *;
      [by subst t|done].
  - rewrite Hbody. simpl. split; [done|]. by exists e.
  - destruct (resolve_body cid path options) as [t [e'|[r|c p o]]];
      simpl in Hlog; subst t.
    + apply (paired_fetched_app cid bytes [] Hkey Hget I).
    + apply (paired_fetched_app cid bytes [] Hkey Hget I).
    + specialize (IH c p o). destruct (resolve fuel c p o) as [t' r'].
      by apply paired_fetched_app.
Qed.

(** What an activation that returns has returned: the root of the block,
    or a value that is no embedded identifier, picked in a block whose
    codec is not DAG-PB. *)
Lemma resolve_body_return_inv cid path options t r :
  resolve_body cid path options = (t, inr (Return r)) ->
  res_value r = block_value (res_block r)
  \/ (embedded_identifier (res_value r) = None /\ code (res_cid r) <> pb_code).
Proof.
  intros Hstep.
  destruct (decide (code cid = kLibp2pKeyCodec)) as [Hkey|Hkey].
  { unfold resolve_body in Hstep. by rewrite Hkey, Z.eqb_refl in Hstep. }
  destruct (block_get cid) as [e|bytes] eqn:Hget.
  { unfold resolve_body, call_get, bind in Hstep.
    apply Z.eqb_neq in Hkey. by rewrite Hkey, Hget in Hstep. }
  destruct (decoder_decode (code cid) (multihash_code cid) bytes)
    as [e|decoded] eqn:Hdec.
  { unfold resolve_body, call_get, call_decode, bind in Hstep.
    apply Z.eqb_neq in Hkey. by rewrite Hkey, Hget, Hdec in Hstep. }
  rewrite (resolve_body_fetched _ _ _ _ _ Hkey Hget Hdec) in Hstep.
  destruct (segments path) as [|curr rest] eqn:Hsegs.
  { injection Hstep as <- <-. by left. }
  destruct (code cid =? pb_code)%Z eqn:Hpb.
  - destruct (followPb_is_false options); [done|].
    destruct (block_value decoded) as [| | | | | | | |node|]; try done.
    by destruct (find _ (Links node)).
  - apply Z.eqb_neq in Hpb.
    destruct (followIpld_is_false options); [done|].
    destruct (walk _ _ _ _ _ _ _ _ _) as [t0 r0] eqn:Hwalk.
    injection Hstep as <- ->.
    apply walk_return_inv in Hwalk as (Hc & _ & _ & Hemb).
    right. split; [by apply Hemb|]. by rewrite Hc.
Qed.

(** [resolve] never hands back an identifier it found inside a block:
    the value of a result is either the root of the returned block, or a
    value that is neither typed as an identifier nor a string that parses
    as one, and then the block's identifier is not a DAG-PB one. *)
Theorem resolve_never_returns_identifier fuel :
  forall cid path options t r,
  resolve fuel cid path options = (t, Some (inr r)) ->
  res_value r = block_value (res_block r)
  \/ (embedded_identifier (res_value r) = None /\ code (res_cid r) <> pb_code).
Proof.
  induction fuel as [|fuel IH]; intros cid path options t r Hres; [done|].
  rewrite resolve_unfold in Hres.
  destruct (resolve_body cid path options) as [t0 [e|[r0|c p o]]] eqn:Hbody.
  - done.
  - injection Hres as <- <-. by apply (resolve_body_return_inv _ _ _ _ _ Hbody).
  - destruct (resolve fuel c p o) as [t' r'] eqn:Hnext.
    injection Hres as <- ->. by apply (IH _ _ _ _ _ Hnext).
Qed.

(** A file of a directory.  On a DAG-PB block whose first link named
    [curr] points to [child], the path made of the single segment [curr]
    resolves to the root of the block of [child]: two rounds in the log,
    and the result carries the identifier and the node the registry gave
    for the child. *)
Theorem resolve_directory_entry_root
    cid path options bytes decoded node curr pre child post
    bytes' decoded' fuel :
  code cid = pb_code ->
  followPb_is_false options = false ->
  block_get cid = inr bytes ->
  decoder_decode (code cid) (multihash_code cid) bytes = inr decoded ->
  block_value decoded = VPb node ->
  segments path = [curr] ->
  Links node = (pre ++ child :: post)%list ->
  Forall (fun l => Name l <> Some curr) pre ->
  Name child = Some curr ->
  code (Hash child) <> kLibp2pKeyCodec ->
  block_get (Hash child) = inr bytes' ->
  decoder_decode (code (Hash child)) (multihash_code (Hash child)) bytes'
    = inr decoded' ->
  resolve (S (S fuel)) cid path options =
    ((fetched cid bytes ++ fetched (Hash child) bytes')%list,
     Some (inr {| res_value := block_value decoded';
                  res_cid := block_cid decoded';
                  res_block := decoded' |})).
Proof.
  intros Hpb Hon Hget Hdec Hval Hsegs Hlinks Hpre Hchild Hkey' Hget' Hdec'.
  rewrite (resolve_tail_call (S fuel) cid path options (fetched cid bytes)
             (Hash child) EmptyString options).
  - rewrite resolve_unfold,
      (resolve_body_fetched _ _ _ _ _ Hkey' Hget' Hdec').
    reflexivity.
  - rewrite (resolve_body_fetched _ _ _ _ _ (pb_code_not_key _ Hpb) Hget Hdec).
    rewrite Hsegs, Hpb, Z.eqb_refl, Hon, Hval, Hlinks.
    rewrite find_first_match; [done| |by apply bool_decide_eq_true].
    eapply Forall_impl; [exact Hpre|]. intros l Hl.
    by apply bool_decide_eq_false.
Qed.

(** A link or an embedded identifier whose codec is libp2p-key is not
    followed: the activation that comes next throws the TypeError, and the
    log stops where the first activation left it. *)
Theorem resolve_key_target_rejected cid path options t c p o fuel :
  resolve_body cid path options = (t, inr (Recurse c p o)) ->
  code c = kLibp2pKeyCodec ->
  exists msg,
    resolve (S (S fuel)) cid path options = (t, Some (inl (TypeError msg))).
Proof.
  intros Hstep Hkey. eexists.
  rewrite (resolve_tail_call _ _ _ _ _ _ _ _ Hstep), resolve_unfold.
  unfold resolve_body. rewrite Hkey, Z.eqb_refl. cbn. by rewrite app_nil_r.
Qed.

(** [resolveIpns] cuts six characters, whatever they are: when the last
    string the resolver yields is any six characters followed by [text],
    the outcome is that of parsing [text]; when it has six characters or
    fewer, the outcome is that of parsing the empty string. *)
Theorem resolveIpns_cuts_six name timeout earlier last :
  let addr :=
    "/ipns/" +:+ match name with inr s => s | inl c => CID_toString c end in
  name_resolve addr true timeout = ((earlier ++ [last])%list, None) ->
  (forall pre text,
     last = pre +:+ text -> String.length pre = 6%nat ->
     resolveIpns name timeout =
       ([NameResolve addr true timeout], CID_parse text))
  /\ ((String.length last <= 6)%nat ->
      resolveIpns name timeout =
        ([NameResolve addr true timeout], CID_parse EmptyString)).
Proof.
  intros addr Hres.
  assert (resolveIpns name timeout =
            ([NameResolve addr true timeout], CID_parse (slice 6 last))) as Hrun.
  { unfold resolveIpns, call_name_resolve, bind. fold addr. rewrite Hres.
    rewrite fold_left_app. cbn [fold_left].
    by destruct (CID_parse (slice 6 last)). }
  split.
  - intros pre text -> Hlen. by rewrite Hrun, <- Hlen, slice_app.
  - intros Hlen. by rewrite Hrun, (slice_short 6 last Hlen).
Qed.

(** Reading through an embedded identifier.  On a generic block whose map
    holds an embedded identifier [c] under [k], [resolve(cid, "/" + k)]
    moves to the block of [c] and looks [k] up there once more: when that
    block is a generic map too, the result is its own entry under [k], in
    the block of [c]; the root of that block is not what is returned. *)
Theorem resolve_through_embedded_identifier
    cid options bytes decoded m k x c bytes' decoded' m' v fuel :
  code cid <> kLibp2pKeyCodec ->
  code cid <> pb_code ->
  followIpld_is_false options = false ->
  block_get cid = inr bytes ->
  decoder_decode (code cid) (multihash_code cid) bytes = inr decoded ->
  block_value decoded = VMap m ->
  is_segment k = true ->
  m !! k = Some x ->
  embedded_identifier x = Some c ->
  code c <> kLibp2pKeyCodec ->
  code c <> pb_code ->
  block_get c = inr bytes' ->
  decoder_decode (code c) (multihash_code c) bytes' = inr decoded' ->
  block_value decoded' = VMap m' ->
  m' !! k = Some v ->
  embedded_identifier v = None ->
  resolve (S (S fuel)) cid ("/" +:+ k) options =
    ((fetched cid bytes ++ fetched c bytes')%list,
     Some (inr {| res_value := v; res_cid := c; res_block := decoded' |})).
Proof.
  intros Hkey Hpb Hon Hget Hdec Hval Hk Hm Hx Hkey' Hpb' Hget' Hdec' Hval' Hm' Hv.
  rewrite (resolve_tail_call (S fuel) cid ("/" +:+ k) options
             (fetched cid bytes) c k options).
  - rewrite resolve_unfold, (resolve_body_fetched _ _ _ _ _ Hkey' Hget' Hdec').
    rewrite (segments_single _ Hk).
    apply Z.eqb_neq in Hpb'. rewrite Hpb', Hon, Hval'.
    rewrite (walk_done _ _ _ _ _ _ [k] (VMap m') 0%nat v); [done| |].
    + cbn. by rewrite Hm'.
    + intros i w Hi. destruct i as [|i]; [|simpl in Hi; lia].
      cbn. rewrite Hm'. by intros [= <-].
  - rewrite (resolve_body_fetched _ _ _ _ _ Hkey Hget Hdec).
    rewrite (segments_slash_single _ Hk).
    apply Z.eqb_neq in Hpb. rewrite Hpb, Hon, Hval.
    rewrite (walk_jump _ _ _ _ _ _ [k] (VMap m) 0%nat 0%nat x c);
      [done| |simpl; lia|done|intros; lia].
    cbn. by rewrite Hm.
Qed.

End ResolverMore.

(** ** The path handling, in plain terms *)

Lemma slash_free_no_slash s :
  Str.slash_free s = true -> ~ In "/"%char (list_ascii_of_string s).
Proof.
  induction s as [|c s IH]; simpl; [tauto|].
  intros [Hc Hs]%andb_prop [Heq|Hin]; [|by apply IH].
  subst c. done.
Qed.

(** Every segment [resolve] takes from its path has at least one
    character and holds no slash. *)
Theorem segments_nonempty_no_slash path s :
  In s (Str.segments path) ->
  s <> EmptyString /\ ~ In "/"%char (list_ascii_of_string s).
Proof.
  intros Hin.
  pose proof (StrFacts.segments_are_segments path) as Hall.
  rewrite List.Forall_forall in Hall. specialize (Hall s Hin).
  unfold Str.is_segment in Hall. apply andb_prop in Hall as [Hn Hsf].
  split; [|by apply slash_free_no_slash].
  intros ->. done.
Qed.

(** Joining with "/" and splitting again gives a list back unchanged
    exactly when each element of the list is a proper segment (not empty,
    no slash); in particular the path of a recursive call carries the
    segments it was built from. *)
Theorem segments_join_round_trip l :
  Str.segments (Str.join "/" l) = l
  <-> Forall (fun w => Str.is_segment w = true) l.
Proof.
  split.
  - intros <-. apply StrFacts.segments_are_segments.
  - apply StrFacts.segments_join.
Qed.

(** ** The resolver at work on the demo store *)

#[local] Existing Instances Demo.collaborators Demo.runtime.

(** The scenarios of the README: a key path through maps and a sequence, a
    file of a directory, a name resolved through one hop. *)
Example resolve_key_path :
  (resolve 1 Demo.cid_tree "/a/b/1" None).2
  = Some (inr {| res_value := VStr "y"; res_cid := Demo.cid_tree;
                 res_block := MkBlock Demo.cid_tree Demo.v_tree [x04] |}).
Proof. vm_compute. reflexivity. Qed.

Example resolve_directory_entry :
  resolve 2 Demo.cid_dir "/file.json" None
  = ((fetched Demo.cid_dir [x03] ++ fetched Demo.cid_child [x02])%list,
     Some (inr {| res_value := Demo.v_child; res_cid := Demo.cid_child;
                  res_block := MkBlock Demo.cid_child Demo.v_child [x02] |})).
Proof. vm_compute. reflexivity. Qed.

Example resolveIpns_example_name :
  resolveIpns (inr "example.name") None
  = ([NameResolve "/ipns/example.name" true None], inr Demo.cid_child).
Proof. vm_compute. reflexivity. Qed.

(** The zero-segment paths of the README and the spec. *)
Example segments_of_slash_runs :
  Str.segments "" = [] /\ Str.segments "/" = [] /\ Str.segments "///" = []
  /\ Str.segments "//a///b/" = ["a"; "b"].
Proof. repeat split. Qed.

(** A key the map does not hold can still be found by inheritance, and
    then is no dead end. *)
Example resolve_inherited_property :
  (resolve 1 Demo.cid_tree "/constructor" None).2
  = Some (inr {| res_value := VHost "constructor"; res_cid := Demo.cid_tree;
                 res_block := MkBlock Demo.cid_tree Demo.v_tree [x04] |}).
Proof. vm_compute. reflexivity. Qed.

(** Two more ways out of the generic walk that are not the Dead-End Error:
    a segment that is not JSON, applied to a sequence, and any segment
    applied to [null]. *)
Example resolve_non_json_segment_on_sequence :
  (resolve 1 Demo.cid_tree "/a/b/abc" None).2
  = Some (inl (SyntaxError "Unexpected token in JSON")).
Proof. vm_compute. reflexivity. Qed.

Example resolve_segment_on_null :
  (resolve 1 Demo.cid_tree "/n/x" None).2
  = Some (inl (TypeError "Cannot read properties of null")).
Proof. vm_compute. reflexivity. Qed.

(** Deeper than the first segment, a missing entry is the Dead-End Error;
    [at] and [remaining] are those of the whole path. *)
Example resolve_dead_end_deeper :
  (resolve 1 Demo.cid_tree "/a/b/7" None).2
  = Some (inl (DeadEnd
      {| message := "Resolution hit dead end at CID cid:tree: object has no property at path /a/b";
         dead_cid := Demo.cid_tree; dead_at := "a"; remaining := "b/7" |})).
Proof. vm_compute. reflexivity. Qed.

(** C5.  The block [{"a": {...}, "n": null}] has no key "b".  Resolving
    "/b" on it does not end in a Dead-End Error: the walk fails at the
    first segment, where the message of the error is built from the empty
    list of consumed segments, and the TypeError of that [reduce] is what
    [resolve] throws. *)
Theorem resolve_missing_key_at_first_segment fuel :
  resolve (S fuel) Demo.cid_tree "/b" None
  = (fetched Demo.cid_tree [x04],
     Some (inl (TypeError "Reduce of empty array with no initial value"))).
Proof. vm_compute. reflexivity. Qed.

(** C6.  Resolving "/nope/x" on the block [{"link": {...}, "extra":
    "shallow"}] fails at its first segment.  No Dead-End Error with
    [at = "nope"] and [remaining = "x"] reaches the caller: the outcome
    is the TypeError raised while the message was being built. *)
Theorem resolve_dead_end_fields_at_first_segment fuel :
  resolve (S fuel) Demo.cid_child "/nope/x" None
  = (fetched Demo.cid_child [x02],
     Some (inl (TypeError "Reduce of empty array with no initial value")))
  /\ forall e, (resolve (S fuel) Demo.cid_child "/nope/x" None).2
               <> Some (inl (DeadEnd e)).
Proof. split; [vm_compute; reflexivity|]. intros e. vm_compute. discriminate. Qed.

(** C2, counterexample.  On the block [{"link": "cid:child"}] the call
    with "/link/extra" continues with the path "link/extra", which is
    not "/extra" and does not split like it. *)
Lemma resolve_link_extra_counterexample :
  resolve_body Demo.cid_link "/link/extra" None
  = (fetched Demo.cid_link [x01],
     inr (Recurse Demo.cid_child "link/extra" None))
  /\ Str.segments "link/extra" <> Str.segments "/extra"
  /\ (resolve 1 Demo.cid_child "link/extra" None).2
     <> (resolve 1 Demo.cid_child "/extra" None).2.
Proof.
  split; [vm_compute; reflexivity|].
  split; vm_compute; discriminate.
Qed.

(** C3, counterexample.  An identifier met under the first segment is
    followed without consuming a segment, and one met under the third
    consumes two. *)
Lemma one_segment_per_step_counterexample :
  (resolve_body Demo.cid_link "/link/extra" None
   = (fetched Demo.cid_link [x01],
      inr (Recurse Demo.cid_child "link/extra" None))
   /\ length (Str.segments "link/extra") = length (Str.segments "/link/extra"))
  /\
  (resolve_body Demo.cid_typed "/far/away/typed/x" None
   = (fetched Demo.cid_typed [x05],
      inr (Recurse Demo.cid_child "typed/x" None))
   /\ (length (Str.segments "typed/x") + 2)%nat
      = length (Str.segments "/far/away/typed/x")).
Proof. repeat split; vm_compute; reflexivity. Qed.

(** C9, counterexample.  The name "example.name" does not parse as an
    identifier, and [resolveIpns] resolves it all the same. *)
Lemma resolveIpns_unparsed_name_counterexample :
  CID_parse "example.name" = inl (Foreign "invalid CID")
  /\ resolveIpns (inr "example.name") None
     = ([NameResolve "/ipns/example.name" true None], inr Demo.cid_child).
Proof. split; vm_compute; reflexivity. Qed.

(** *** The theorems above, applied *)

Lemma resolve_rejects_libp2p_key_witness :
  resolve 1 Demo.cid_key "/a/b" None
  = ([], Some (inl (TypeError
       ("Received CID with codec for 'libp2p-key'. " +:+
        "If you need to resolve IPNS into a CID, call resolveIpns() first")))).
Proof. apply (resolve_rejects_libp2p_key Demo.cid_key "/a/b" None 0). reflexivity. Defined.

Lemma resolve_root_path_witness :
  resolve 1 Demo.cid_dir "///" None
  = (fetched Demo.cid_dir [x03],
     Some (inr {| res_value := Demo.v_dir;
                  res_cid := MkCID pb_code Demo.sha2_256 [x03];
                  res_block := MkBlock (MkCID pb_code Demo.sha2_256 [x03])
                                       Demo.v_dir [x03] |})).
Proof.
  apply (resolve_root_path Demo.cid_dir "///" None [x03]
           (MkBlock (MkCID pb_code Demo.sha2_256 [x03]) Demo.v_dir [x03]) 0).
  - vm_compute. discriminate.
  - reflexivity.
  - reflexivity.
  - reflexivity.
Defined.

Lemma resolve_pb_following_disabled_witness :
  resolve 1 Demo.cid_dir "/dup/a/b" (Some (MkOptions (Some false) None))
  = (fetched Demo.cid_dir [x03],
     Some (inl (DeadEnd
       {| message := dead_end_prefix Demo.cid_dir +:+
            "node is a DAG-PB node, but 'followPb' is set to 'false'";
          dead_cid := Demo.cid_dir;
          dead_at := "dup";
          remaining := Str.join "/" ["a"; "b"] |}))).
Proof.
  apply (resolve_pb_following_disabled Demo.cid_dir "/dup/a/b"
           (MkOptions (Some false) None) [x03]
           (MkBlock (MkCID pb_code Demo.sha2_256 [x03]) Demo.v_dir [x03])
           "dup" ["a"; "b"] 0); reflexivity.
Defined.

Lemma resolve_pb_link_lookup_witness :
  resolve_body Demo.cid_dir "/dup/a" None
  = (fetched Demo.cid_dir [x03], inr (Recurse Demo.cid_tree "a" None)).
Proof.
  pose proof (resolve_pb_link_lookup Demo.cid_dir "/dup/a" None [x03]
                (MkBlock (MkCID pb_code Demo.sha2_256 [x03]) Demo.v_dir [x03])
                {| Data := None;
                   Links := [ MkPBLink None None Demo.cid_link;
                              MkPBLink (Some "file.json") (Some 7%Z) Demo.cid_child;
                              MkPBLink (Some "dup") None Demo.cid_tree;
                              MkPBLink (Some "dup") None Demo.cid_child ] |}
                "dup" ["a"] eq_refl eq_refl eq_refl eq_refl eq_refl eq_refl)
    as (_ & Hfirst & _).
  destruct (Hfirst [ MkPBLink None None Demo.cid_link;
                     MkPBLink (Some "file.json") (Some 7%Z) Demo.cid_child ]
                   (MkPBLink (Some "dup") None Demo.cid_tree)
                   [ MkPBLink (Some "dup") None Demo.cid_child ] 0%nat)
    as [Hstep _].
  - reflexivity.
  - repeat constructor; simpl; discriminate.
  - reflexivity.
  - exact Hstep.
Defined.

Lemma resolve_embedded_identifier_jump_witness :
  resolve_body Demo.cid_typed "/k/typed/x" None
  = (fetched Demo.cid_typed [x05], inr (Recurse Demo.cid_tree "typed/x" None)).
Proof.
  destruct (resolve_embedded_identifier_jump Demo.cid_typed "/k/typed/x" None
              [x05]
              (MkBlock (MkCID Demo.dag_json Demo.sha2_256 [x05]) Demo.v_typed [x05])
              1%nat "typed" (VLink Demo.cid_tree) Demo.cid_tree 0%nat)
    as (Hstep & _ & _).
  - vm_compute. discriminate.
  - vm_compute. discriminate.
  - reflexivity.
  - reflexivity.
  - reflexivity.
  - reflexivity.
  - vm_compute. reflexivity.
  - intros k w Hk Hw. destruct k as [|k]; [|lia].
    vm_compute in Hw. injection Hw as <-. reflexivity.
  - reflexivity.
  - exact Hstep.
Defined.

Lemma resolve_step_consumption_witness :
  exists i, (i < 4)%nat
    /\ Str.segments "typed/x" = skipn i (Str.segments "/far/away/typed/x").
Proof.
  destruct (resolve_step_consumption Demo.cid_typed "/far/away/typed/x" None
              (fetched Demo.cid_typed [x05]) Demo.cid_child "typed/x" None)
    as [_ [(Hpb & _) | (_ & bytes & decoded & i & v & _ & _ & _ & _ & Hi & Hs & _)]].
  - vm_compute. reflexivity.
  - vm_compute in Hpb. discriminate.
  - exists i. split; [exact Hi | exact Hs].
Defined.

Lemma resolve_link_extra_witness :
  resolve_body Demo.cid_link "/link/extra" None
  = (fetched Demo.cid_link [x01],
     inr (Recurse Demo.cid_child "link/extra" None)).
Proof.
  destruct (resolve_link_extra Demo.cid_link None [x01]
              (MkBlock (MkCID Demo.dag_json Demo.sha2_256 [x01]) Demo.v_link [x01])
              "cid:child" Demo.cid_child 0%nat)
    as (Hstep & _ & _).
  - vm_compute. discriminate.
  - vm_compute. discriminate.
  - reflexivity.
  - reflexivity.
  - reflexivity.
  - reflexivity.
  - reflexivity.
  - exact Hstep.
Defined.

Lemma resolveIpns_keeps_last_witness :
  resolveIpns (inr "example.name") None
  = ([NameResolve "/ipns/example.name" true None], inr Demo.cid_child).
Proof.
  pose proof (resolveIpns_keeps_last (inr "example.name") None) as (Hlast & _).
  exact (Hlast ["/ipns/intermediate"] "/ipns/cid:child" eq_refl).
Defined.

(** *** The further theorems, applied *)

Lemma segments_nonempty_no_slash_witness :
  "file.json" <> EmptyString
  /\ ~ In "/"%char (list_ascii_of_string "file.json").
Proof.
  apply (segments_nonempty_no_slash "//dir/file.json/0" "file.json").
  simpl. tauto.
Defined.

Lemma segments_join_round_trip_witness :
  Str.segments (Str.join "/" ["dir"; "file.json"; "0"]) = ["dir"; "file.json"; "0"].
Proof.
  apply (proj2 (segments_join_round_trip ["dir"; "file.json"; "0"])).
  repeat constructor.
Defined.

Lemma resolve_through_embedded_identifier_witness :
  resolve 2 Demo.cid_link "/link" None
  = ((fetched Demo.cid_link [x01] ++ fetched Demo.cid_child [x02])%list,
     Some (inr {| res_value := VMap {[ "extra" := VStr "deep" ]};
                  res_cid := Demo.cid_child;
                  res_block := MkBlock Demo.cid_child Demo.v_child [x02] |})).
Proof.
  apply (resolve_through_embedded_identifier Demo.cid_link None [x01]
           (MkBlock Demo.cid_link Demo.v_link [x01])
           {[ "link" := VStr "cid:child" ]} "link" (VStr "cid:child")
           Demo.cid_child [x02]
           (MkBlock Demo.cid_child Demo.v_child [x02])
           (<[ "link" := VMap {[ "extra" := VStr "deep" ]} ]>
              {[ "extra" := VStr "shallow" ]})
           (VMap {[ "extra" := VStr "deep" ]}) 0%nat).
  - vm_compute. discriminate.
  - vm_compute. discriminate.
  - reflexivity.
  - reflexivity.
  - reflexivity.
  - reflexivity.
  - reflexivity.
  - vm_compute. reflexivity.
  - reflexivity.
  - vm_compute. discriminate.
  - vm_compute. discriminate.
  - reflexivity.
  - reflexivity.
  - reflexivity.
  - vm_compute. reflexivity.
  - reflexivity.
Defined.

Lemma resolve_generic_walk_returns_witness :
  resolve 1 Demo.cid_tree "/a/b/1" None
  = (fetched Demo.cid_tree [x04],
     Some (inr {| res_value := VStr "y"; res_cid := Demo.cid_tree;
                  res_block := MkBlock Demo.cid_tree Demo.v_tree [x04] |})).
Proof.
  apply (resolve_generic_walk_returns Demo.cid_tree "/a/b/1" None [x04]
           (MkBlock Demo.cid_tree Demo.v_tree [x04]) (VStr "y") 0%nat).
  - vm_compute. discriminate.
  - vm_compute. discriminate.
  - reflexivity.
  - reflexivity.
  - reflexivity.
  - vm_compute. discriminate.
  - vm_compute. reflexivity.
  - intros k w Hk Hw.
    destruct k as [|[|[|k]]]; [| | |vm_compute in Hk; lia];
      vm_compute in Hw; injection Hw as <-; reflexivity.
Defined.

Lemma resolve_map_key_witness :
  resolve 1 Demo.cid_child "/extra" None
  = (fetched Demo.cid_child [x02],
     Some (inr {| res_value := VStr "shallow"; res_cid := Demo.cid_child;
                  res_block := MkBlock Demo.cid_child Demo.v_child [x02] |})).
Proof.
  apply (resolve_map_key Demo.cid_child None [x02]
           (MkBlock Demo.cid_child Demo.v_child [x02])
           (<[ "link" := VMap {[ "extra" := VStr "deep" ]} ]>
              {[ "extra" := VStr "shallow" ]})
           "extra" (VStr "shallow") 0%nat).
  - vm_compute. discriminate.
  - vm_compute. discriminate.
  - reflexivity.
  - reflexivity.
  - reflexivity.
  - reflexivity.
  - reflexivity.
  - vm_compute. reflexivity.
  - reflexivity.
Defined.

Lemma resolve_sequence_index_witness :
  @resolve Shelf.collaborators Demo.runtime 1 Shelf.cid_seq "/0" None
  = (fetched Shelf.cid_seq [x11],
     Some (inr {| res_value := VStr "zero"; res_cid := Shelf.cid_seq;
                  res_block := MkBlock Shelf.cid_seq Shelf.v_seq [x11] |})).
Proof.
  apply (@resolve_sequence_index Shelf.collaborators Demo.runtime
           Shelf.cid_seq None [x11]
           (MkBlock Shelf.cid_seq Shelf.v_seq [x11])
           [VStr "zero"; VNull; VMap {[ "k" := VStr "v" ]}]
           "0" "0" 0%nat (VStr "zero") 0%nat).
  - vm_compute. discriminate.
  - vm_compute. discriminate.
  - reflexivity.
  - reflexivity.
  - reflexivity.
  - reflexivity.
  - reflexivity.
  - reflexivity.
  - reflexivity.
  - reflexivity.
  - reflexivity.
Defined.

Lemma resolve_null_cursor_witness :
  resolve 1 Demo.cid_tree "/n/x" None
  = (fetched Demo.cid_tree [x04],
     Some (inl (TypeError "Cannot read properties of null"))).
Proof.
  apply (resolve_null_cursor Demo.cid_tree "/n/x" None [x04]
           (MkBlock Demo.cid_tree Demo.v_tree [x04]) 1%nat "x" 0%nat).
  - vm_compute. discriminate.
  - vm_compute. discriminate.
  - reflexivity.
  - reflexivity.
  - reflexivity.
  - vm_compute. reflexivity.
  - reflexivity.
  - intros k w Hk Hw. destruct k as [|k]; [|lia].
    vm_compute in Hw. injection Hw as <-. reflexivity.
Defined.

Lemma resolve_sequence_bad_json_witness :
  resolve 1 Demo.cid_tree "/a/b/abc" None
  = (fetched Demo.cid_tree [x04],
     Some (inl (SyntaxError "Unexpected token in JSON"))).
Proof.
  apply (resolve_sequence_bad_json Demo.cid_tree "/a/b/abc" None [x04]
           (MkBlock Demo.cid_tree Demo.v_tree [x04]) 2%nat
           [VStr "x"; VStr "y"; VStr "z"] "abc" 0%nat).
  - vm_compute. discriminate.
  - vm_compute. discriminate.
  - reflexivity.
  - reflexivity.
  - reflexivity.
  - vm_compute. reflexivity.
  - reflexivity.
  - reflexivity.
  - intros k w Hk Hw. destruct k as [|[|k]]; [| |lia];
      vm_compute in Hw; injection Hw as <-; reflexivity.
Defined.

Lemma resolve_ipld_following_disabled_witness :
  resolve 1 Demo.cid_tree "/a/b" (Some (MkOptions None (Some false)))
  = (fetched Demo.cid_tree [x04],
     Some (inl (DeadEnd
       {| message := dead_end_prefix Demo.cid_tree +:+
            "node is an IPLD node, but 'followIpld' is set to 'false'";
          dead_cid := Demo.cid_tree;
          dead_at := "a";
          remaining := Str.join "/" ["b"] |}))).
Proof.
  apply (resolve_ipld_following_disabled Demo.cid_tree "/a/b"
           (MkOptions None (Some false)) [x04]
           (MkBlock Demo.cid_tree Demo.v_tree [x04]) "a" ["b"] 0%nat).
  - vm_compute. discriminate.
  - vm_compute. discriminate.
  - reflexivity.
  - reflexivity.
  - reflexivity.
  - reflexivity.
Defined.

Lemma resolve_generic_undefined_witness :
  resolve 1 Demo.cid_tree "/a/b/7" None
  = (fetched Demo.cid_tree [x04],
     Some (inl (DeadEnd
       {| message := dead_end_prefix Demo.cid_tree +:+
            "object has no property at path /" +:+ Str.join "/" ["a"; "b"];
          dead_cid := Demo.cid_tree;
          dead_at := "a";
          remaining := Str.join "/" ["b"; "7"] |}))).
Proof.
  apply (resolve_generic_undefined Demo.cid_tree "/a/b/7" None [x04]
           (MkBlock Demo.cid_tree Demo.v_tree [x04]) 2%nat
           (VList [VStr "x"; VStr "y"; VStr "z"]) "7" 0%nat).
  - vm_compute. discriminate.
  - vm_compute. discriminate.
  - reflexivity.
  - reflexivity.
  - reflexivity.
  - vm_compute. reflexivity.
  - reflexivity.
  - vm_compute. reflexivity.
  - intros k w Hk Hw. destruct k as [|[|k]]; [| |lia];
      vm_compute in Hw; injection Hw as <-; reflexivity.
Defined.

Lemma resolve_fetch_failure_witness :
  @resolve Shelf.collaborators Demo.runtime 1 Shelf.cid_gone "/a" None
  = ([BlockGet Shelf.cid_gone], Some (inl (Foreign "block not found"))).
Proof.
  apply (@resolve_fetch_failure Shelf.collaborators Demo.runtime
           Shelf.cid_gone "/a" None (Foreign "block not found") 0%nat).
  - vm_compute. discriminate.
  - reflexivity.
Defined.

Lemma resolve_decode_failure_witness :
  @resolve Shelf.collaborators Demo.runtime 1 Shelf.cid_bad "/a" None
  = (fetched Shelf.cid_bad [x13], Some (inl (Foreign "cannot decode"))).
Proof.
  apply (@resolve_decode_failure Shelf.collaborators Demo.runtime
           Shelf.cid_bad "/a" None [x13] (Foreign "cannot decode") 0%nat).
  - vm_compute. discriminate.
  - reflexivity.
  - reflexivity.
Defined.

Lemma resolve_never_returns_identifier_witness :
  VStr "y" = Demo.v_tree
  \/ (embedded_identifier (VStr "y") = None /\ code Demo.cid_tree <> pb_code).
Proof.
  apply (resolve_never_returns_identifier 1 Demo.cid_tree "/a/b/1" None
           (fetched Demo.cid_tree [x04])
           {| res_value := VStr "y"; res_cid := Demo.cid_tree;
              res_block := MkBlock Demo.cid_tree Demo.v_tree [x04] |}).
  vm_compute. reflexivity.
Defined.

Lemma resolve_directory_entry_root_witness :
  resolve 2 Demo.cid_dir "/file.json" None
  = ((fetched Demo.cid_dir [x03] ++ fetched Demo.cid_child [x02])%list,
     Some (inr {| res_value := Demo.v_child; res_cid := Demo.cid_child;
                  res_block := MkBlock Demo.cid_child Demo.v_child [x02] |})).
Proof.
  apply (resolve_directory_entry_root Demo.cid_dir "/file.json" None [x03]
           (MkBlock (MkCID pb_code Demo.sha2_256 [x03]) Demo.v_dir [x03])
           {| Data := None;
              Links := [ MkPBLink None None Demo.cid_link;
                         MkPBLink (Some "file.json") (Some 7%Z) Demo.cid_child;
                         MkPBLink (Some "dup") None Demo.cid_tree;
                         MkPBLink (Some "dup") None Demo.cid_child ] |}
           "file.json"
           [ MkPBLink None None Demo.cid_link ]
           (MkPBLink (Some "file.json") (Some 7%Z) Demo.cid_child)
           [ MkPBLink (Some "dup") None Demo.cid_tree;
             MkPBLink (Some "dup") None Demo.cid_child ]
           [x02] (MkBlock Demo.cid_child Demo.v_child [x02]) 0%nat).
  - reflexivity.
  - reflexivity.
  - reflexivity.
  - reflexivity.
  - reflexivity.
  - reflexivity.
  - reflexivity.
  - repeat constructor; simpl; discriminate.
  - reflexivity.
  - vm_compute. discriminate.
  - reflexivity.
  - reflexivity.
Defined.

Lemma resolve_key_target_rejected_witness :
  exists msg,
    @resolve Shelf.collaborators Demo.runtime 2 Shelf.cid_ipns "/ipns" None
    = (fetched Shelf.cid_ipns [x12], Some (inl (TypeError msg))).
Proof.
  apply (@resolve_key_target_rejected Shelf.collaborators Demo.runtime
           Shelf.cid_ipns "/ipns" None (fetched Shelf.cid_ipns [x12])
           Demo.cid_key "ipns" None 0%nat).
  - vm_compute. reflexivity.
  - reflexivity.
Defined.

Lemma resolveIpns_cuts_six_witness :
  @resolveIpns Shelf.collaborators Demo.runtime (inr "odd.name") None
  = ([NameResolve "/ipns/odd.name" true None], inr Demo.cid_child).
Proof.
  destruct (@resolveIpns_cuts_six Shelf.collaborators Demo.runtime
              (inr "odd.name") None [] "/ipfs/cid:child" eq_refl)
    as [Hcut _].
  exact (Hcut "/ipfs/" "cid:child" eq_refl eq_refl).
Defined.
